(** * SedaroSubmission: the interval store and the asynchronous stepping loop

    A shallow embedding of [app/sim.py].  Python floats are IEEE binary64
    numbers and are modelled by Rocq's primitive floats; the integer
    literals of the seed ([0], [1000], [-999999999], ...) are all exactly
    representable and are written as floats.  Python exceptions are values
    of [exn]; code that can raise lives in the [result] monad, code that
    also mutates the module-level [store] and [times] lives in a
    state-and-exception monad whose state survives a raised exception, as a
    Python object does.  The last bit and the [errno] of the C library's
    [pow], which [time_step ** 2] ends in, belong to the platform and are a
    parameter ([Libm]); every property is stated for all platforms unless it
    names one.  Writing [data.json] at the end of the file is not modelled. *)

From Stdlib Require Import List String Bool Arith ZArith Lia.
From Stdlib Require Import Floats.
Import ListNotations.

Set Implicit Arguments.
#[local] Set Warnings "-inexact-float,-abstract-large-number".

Local Open Scope string_scope.
Local Open Scope list_scope.

(** ** Exceptions and the two monads *)

Inductive exn : Type :=
| IndexError (msg : string)
| KeyError (key : string)
| ZeroDivisionError
| OverflowError
| ValueError.

Inductive result (A : Type) : Type :=
| Ok (a : A)
| Raise (e : exn).

Arguments Ok {A} a.
Arguments Raise {A} e.

Definition rbind {A B} (c : result A) (k : A -> result B) : result B :=
  match c with
  | Ok a => k a
  | Raise e => Raise e
  end.

(** A computation over a mutable state [S]: the state is returned in every
    case, so a mutation made before an exception is raised stays visible. *)
Definition M (S A : Type) : Type := S -> result A * S.

Definition ret {S A} (a : A) : M S A := fun s => (Ok a, s).

Definition raise {S A} (e : exn) : M S A := fun s => (Raise e, s).

Definition bind {S A B} (c : M S A) (k : A -> M S B) : M S B :=
  fun s =>
    match c s with
    | (Ok a, s') => k a s'
    | (Raise e, s') => (Raise e, s')
    end.

Definition lift {S A} (c : result A) : M S A := fun s => (c, s).

Definition gets {S A} (f : S -> A) : M S A := fun s => (Ok (f s), s).

Definition modify {S} (f : S -> S) : M S unit := fun s => (Ok tt, f s).

(** [try: c except IndexError: h] *)
Definition except_IndexError {S A} (c : M S A) (h : M S A) : M S A :=
  fun s =>
    match c s with
    | (Raise (IndexError _), s') => h s'
    | other => other
    end.

Declare Scope py_scope.
Delimit Scope py_scope with py.
Notation "x <- c ;; k" := (bind c (fun x => k))
  (at level 61, c at next level, right associativity) : py_scope.
Notation "c ;;; k" := (bind c (fun _ => k))
  (at level 61, right associativity) : py_scope.
Notation "x <~ c ;; k" := (rbind c (fun x => k))
  (at level 61, c at next level, right associativity) : py_scope.

(** [for a in l: body a] *)
Fixpoint for_each {S A} (l : list A) (body : A -> M S unit) : M S unit :=
  match l with
  | [] => ret tt
  | a :: rest => bind (body a) (fun _ => for_each rest body)
  end.

(** [for _ in range(n): body] *)
Fixpoint for_range {S} (n : nat) (body : M S unit) : M S unit :=
  match n with
  | O => ret tt
  | S n' => bind body (fun _ => for_range n' body)
  end.

(** ** Python dictionaries

    A [dict] keeps its keys in insertion order, and [propagate] iterates
    over one, so a dictionary is an association list whose keys are
    distinct. *)
Module Dict.

Definition t (V : Type) : Type := list (string * V).

Definition keys {V} (d : t V) : list string := map fst d.

Fixpoint get {V} (d : t V) (k : string) : option V :=
  match d with
  | [] => None
  | (k', v) :: rest => if String.eqb k' k then Some v else get rest k
  end.

(** [d[k] = v]: an existing key keeps its place, a new key goes last. *)
Fixpoint set {V} (d : t V) (k : string) (v : V) : t V :=
  match d with
  | [] => [(k, v)]
  | (k', v') :: rest =>
      if String.eqb k' k then (k', v) :: rest else (k', v') :: set rest k v
  end.

(** [d1 | d2]: a copy of [d1] updated with the items of [d2] in order. *)
Definition or {V} (d1 d2 : t V) : t V :=
  fold_left (fun acc kv => set acc (fst kv) (snd kv)) d2 d1.

Definition mem (k : string) (l : list string) : bool :=
  existsb (String.eqb k) l.

(** [set(a) == set(b)] on two key sequences. *)
Definition set_eqb (a b : list string) : bool :=
  forallb (fun k => mem k b) a && forallb (fun k => mem k a) b.

End Dict.

(** ** The C library

    [a ** 2] on a float ends in C's [pow(a, 2.0)], whose last bit and whose
    [errno] are the platform's. *)
Class Libm : Type := {
  c_pow2 : float -> float;        (* [pow(a, 2.0)] for a finite [a > 0], [a <> 1] *)
  c_pow2_erange : float -> bool   (* whether that call leaves [errno = ERANGE] *)
}.

(** A platform whose [pow] returns the correctly rounded square and leaves
    [errno] alone (an overflow shows as an infinite result).  The closed
    examples below are evaluated on it; the steps they square are 0, 0.0005,
    0.02, 1.0 and 1e200. *)
Definition correctly_rounded : Libm :=
  {| c_pow2 := fun a => PrimFloat.mul a a; c_pow2_erange := fun _ => false |}.

(** ** Float operations as Python performs them *)

Module PyFloat.
Local Open Scope float_scope.

(** [a / b] raises on a zero divisor (of either sign). *)
Definition div (a b : float) : result float :=
  if b =? 0 then Raise ZeroDivisionError else Ok (a / b).

(** [math.sqrt(v)]: a negative argument is a math domain error. *)
Definition sqrt (v : float) : result float :=
  if v <? 0 then Raise ValueError else Ok (PrimFloat.sqrt v).

(** [a ** 2] as CPython's [float_pow] computes it: NaN, the infinities,
    zero and a base of absolute value 1 are decided first; otherwise C's
    [pow] is called on the absolute value, and a range error that left a
    non-zero result, or an infinite result without one, is an
    OverflowError. *)
Definition pow2 {L : Libm} (a : float) : result float :=
  if is_nan a then Ok a
  else if is_infinity a then Ok (abs a)
  else if a =? 0 then Ok 0
  else
    let iv := if a <? 0 then - a else a in
    if iv =? 1 then Ok 1
    else
      let ix := c_pow2 iv in
      if (if c_pow2_erange iv then negb (ix =? 0) else is_infinity ix)
      then Raise OverflowError
      else Ok ix.

End PyFloat.

(** ** MODELING & SIMULATION *)

Record AgentState : Type := mkAgent {
  name : string;
  time : float;
  time_step : float;
  x : float;
  y : float;
  vx : float;
  vy : float;
  m : float
}.

Section Physics.
Context {L : Libm}.
Local Open Scope float_scope.
Local Open Scope py_scope.

(** [6.67 * (10 ** -11)]; [10 ** -11] is the float [1e-11]. *)
Definition gravitational_constant : float := 6.67 * 1e-11.

(** The body of [for ID, body in universe.items()] in [propagate], over
    the items still to visit, with the running [force_x], [force_y]. *)
Fixpoint force_loop (agentId : string) (mass x0 y0 : float)
    (items : list (string * AgentState)) (force_x force_y : float)
  : result (float * float) :=
  match items with
  | [] => Ok (force_x, force_y)
  | (ID, body) :: rest =>
      if String.eqb ID agentId then
        force_loop agentId mass x0 y0 rest force_x force_y
      else
        let dx := x body - x0 in
        let dy := y body - y0 in
        distance <~ PyFloat.sqrt (dx * dx + dy * dy) ;;
        q <~ PyFloat.div (gravitational_constant * mass * m body) distance ;;
        let force_magnitude := q * distance in
        fx <~ PyFloat.div (force_magnitude * dx) distance ;;
        fy <~ PyFloat.div (force_magnitude * dy) distance ;;
        force_loop agentId mass x0 y0 rest (force_x + fx) (force_y + fy)
  end.

(** Propagate agentId from [time] to [time + time_step]. *)
Definition propagate (agentId : string) (universe : Dict.t AgentState)
  : result AgentState :=
  match Dict.get universe agentId with
  | None => Raise (KeyError agentId)
  | Some state =>
      let mass := m state in
      f <~ force_loop agentId mass (x state) (y state) universe 0 0 ;;
      accel_x <~ PyFloat.div (fst f) mass ;;
      accel_y <~ PyFloat.div (snd f) mass ;;
      sq <~ PyFloat.pow2 (time_step state) ;;
      let x' := x state + (vx state * time_step state + 0.5 * accel_x * sq) in
      sq' <~ PyFloat.pow2 (time_step state) ;;
      let y' := y state + (vy state * time_step state + 0.5 * accel_y * sq') in
      let vx' := vx state + accel_x * time_step state in
      let vy' := vy state + accel_y * time_step state in
      Ok {| name := name state;
            time := time state + time_step state;
            time_step := 1.0;
            x := x'; y := y'; vx := vx'; vy := vy';
            m := mass |}
  end.

End Physics.

(** ** DATA STRUCTURE *)

(** A Q-Range KV Store mapping left-inclusive, right-exclusive ranges
    [low, high) to values. *)
Module QRangeStore.
Local Open Scope float_scope.
Local Open Scope py_scope.

(** [self.store]: the list of [(low, high, value)] tuples. *)
Definition t (V : Type) : Type := list (float * float * V).

Definition __init__ {V} : t V := [].

Definition __setitem__ {V} (rng : float * float) (value : V) : M (t V) unit :=
  let '(low, high) := rng in
  if negb (low <? high) then raise (IndexError "Invalid Range.")
  else modify (fun store => store ++ [(low, high, value)]).

(** [[v for (l, h, v) in self.store if l <= key < h]] *)
Fixpoint comprehension {V} (store : t V) (key : float) : list V :=
  match store with
  | [] => []
  | (l, h, v) :: rest =>
      if (l <=? key) && (key <? h) then v :: comprehension rest key
      else comprehension rest key
  end.

Definition __getitem__ {V} (key : float) : M (t V) (list V) :=
  store <- gets (fun s => s) ;;
  let r := comprehension store key in
  match r with
  | [] => raise (IndexError "Not found.")
  | _ => ret r
  end.

End QRangeStore.

(** ** SIMULATOR *)

(** The seed of the run, [init] in the source. *)
Definition init : Dict.t AgentState :=
  [ ("Planet",    mkAgent "Earth" 0 0.02 0 0 (-0.01) 0 1000);
    ("Satellite", mkAgent "Moon" 0 0.02 0 5 0.01 (-0.01) 1000);
    ("Sun",       mkAgent "Sun" 0 0.02 10 2.5 0 0 10000) ]%float.

(** The two module-level objects the loop mutates. *)
Record world : Type := mkWorld {
  store : QRangeStore.t (Dict.t AgentState);
  times : Dict.t float
}.

Definition on_store {A} (c : M (QRangeStore.t (Dict.t AgentState)) A) : M world A :=
  fun w => let '(r, s') := c (store w) in (r, mkWorld s' (times w)).

(** [times[agentId]] *)
Definition times_get (agentId : string) : M world float :=
  fun w => match Dict.get (times w) agentId with
           | Some t => (Ok t, w)
           | None => (Raise (KeyError agentId), w)
           end.

(** [times[agentId] = t] *)
Definition times_set (agentId : string) (t : float) : M world unit :=
  modify (fun w => mkWorld (store w) (Dict.set (times w) agentId t)).

(** [reduce(__or__, data, {})] *)
Definition merge {V} (data : list (Dict.t V)) : Dict.t V :=
  fold_left (@Dict.or V) data [].

Local Open Scope py_scope.

Definition read (t : float) : M world (Dict.t AgentState) :=
  data <- except_IndexError (on_store (QRangeStore.__getitem__ t)) (ret []) ;;
  ret (merge data).

(** The simulator is stated for an arbitrary seed dictionary, the
    module-level [init] of the source; [main] below runs it on [init]. *)
Section Simulator.
Context {L : Libm}.
Variable seed : Dict.t AgentState.

(** [store = QRangeStore(); store[-999999999, 0] = init; times = {...}] *)
Definition setup : M world unit :=
  on_store (QRangeStore.__setitem__ (-999999999, 0)%float seed) ;;;
  modify (fun w => mkWorld (store w) (map (fun kv => (fst kv, time (snd kv))) seed)).

(** The body of [for agentId in init]. *)
Definition tick (agentId : string) : M world unit :=
  t <- times_get agentId ;;
  universe <- read (t - 0.001)%float ;;
  if Dict.set_eqb (Dict.keys universe) (Dict.keys seed) then
    newState <- lift (propagate agentId universe) ;;
    on_store (QRangeStore.__setitem__ (t, time newState) [(agentId, newState)]) ;;;
    times_set agentId (time newState)
  else ret tt.

(** One scheduling pass: [for agentId in init: ...]. *)
Definition pass : M world unit := for_each (Dict.keys seed) tick.

(** [for _ in range(n): for agentId in init: ...] *)
Definition loop (n : nat) : M world unit := for_range n pass.

Definition program (n : nat) : M world unit := setup ;;; loop n.

End Simulator.

Definition empty_world : world := mkWorld QRangeStore.__init__ [].

(** The run of the source file: 10000 passes over [init].  It squares no
    step but 0.02 and 1.0; [main] is the run on a platform that squares them
    as [correctly_rounded] does. *)
Definition passes : nat := 10000.
Definition main : result unit * world :=
  program (L := correctly_rounded) init passes empty_world.

(** * Specification-side definitions

    Nothing below is part of the program: these are the predicates,
    observers and reference computations the properties are stated with. *)

(** The range of record [r] holds [key]: [l <= key < h]. *)
Definition covers {V} (key : float) (r : float * float * V) : bool :=
  let '(l, h, _) := r in ((l <=? key) && (key <? h))%float.

(** The key sequence [a] has every key of [b]: [set(a) >= set(b)]. *)
Definition superset (a b : list string) : bool :=
  forallb (fun k => Dict.mem k a) b.

(** No two states are at the same place. *)
Fixpoint distinct_positions (l : list AgentState) : bool :=
  match l with
  | [] => true
  | s :: rest =>
      forallb (fun b => negb ((x b =? x s) && (y b =? y s))%float) rest
      && distinct_positions rest
  end.

(** The store of the documentation scenario: [0,3) -> "A", [2,4) -> "D". *)
Definition scenario : QRangeStore.t string :=
  snd (bind (QRangeStore.__setitem__ (0, 3)%float "A")
            (fun _ => QRangeStore.__setitem__ (2, 4)%float "D")
            QRangeStore.__init__).

(** The store built by the insertions of the class documentation, the
    rejected [store[2, 0] = 'Record F'] included. *)
Definition documented : QRangeStore.t string :=
  snd (for_each [ (0, 3, "Record A"); (3, 4, "Record B"); (0, 2, "Record C");
                  (2, 4, "Record D"); (8, 9, "Record E") ]%float
                (fun r => QRangeStore.__setitem__ (fst r) (snd r))
                QRangeStore.__init__).

(** A well-formed dictionary has no key twice. *)
Definition wf_dict {V} (d : Dict.t V) : Prop := NoDup (Dict.keys d).

(** The binding of [k] in the last dictionary of [data] that has one. *)
Fixpoint latest {V} (data : list (Dict.t V)) (k : string) : option V :=
  match data with
  | [] => None
  | d :: rest =>
      match latest rest k with
      | Some v => Some v
      | None => Dict.get d k
      end
  end.

(** What [read t] returns in world [w]. *)
Definition snapshot (w : world) (t : float) : Dict.t AgentState :=
  merge (QRangeStore.comprehension (store w) t).

(** The world the loop starts from. *)
Definition start (seed : Dict.t AgentState) : world :=
  snd (setup seed empty_world).

(** The ticks of [n] passes in the order the loop performs them, each with
    the number of its pass. *)
Definition schedule (seed : Dict.t AgentState) (n : nat) : list (nat * string) :=
  flat_map (fun p => map (pair p) (Dict.keys seed)) (seq 0 n).

(** [P p a w] holds at every tick of the schedule, [w] being the world the
    tick of agent [a] in pass [p] starts from: the world the tick before
    left, also when that tick raised (where the loop itself stops). *)
Fixpoint all_ticks {L : Libm} (seed : Dict.t AgentState)
    (P : nat -> string -> world -> Prop)
    (sched : list (nat * string)) (w : world) : Prop :=
  match sched with
  | [] => True
  | (p, a) :: rest => P p a w /\ all_ticks seed P rest (snd (tick seed a w))
  end.

(** The world after all the ticks of a schedule. *)
Definition after {L : Libm} (seed : Dict.t AgentState) (sched : list (nat * string))
    (w : world) : world :=
  fold_left (fun w pa => snd (tick seed (snd pa) w)) sched w.

(** Whether the tick of [a] in world [w] finds every known agent in its
    snapshot (the test of the [if] in the loop). *)
Definition gate_open (seed : Dict.t AgentState) (a : string) (w : world) : bool :=
  match Dict.get (times w) a with
  | Some t => Dict.set_eqb (Dict.keys (snapshot w (t - 0.001)%float)) (Dict.keys seed)
  | None => false
  end.

(** The number of ticks of the schedule that the gate blocks. *)
Fixpoint blocked_ticks {L : Libm} (seed : Dict.t AgentState) (sched : list (nat * string))
    (w : world) : nat :=
  match sched with
  | [] => 0
  | (_, a) :: rest =>
      (if gate_open seed a w then 0 else 1) + blocked_ticks seed rest (snd (tick seed a w))
  end.

(** Every key of every stored value is a key of the seed. *)
Definition keys_within (seed : Dict.t AgentState) (w : world) : Prop :=
  forall low high v k,
    In (low, high, v) (store w) -> In k (Dict.keys v) -> In k (Dict.keys seed).

(** The states recorded for agent [a], in store order (the seed first). *)
Definition history (a : string) (s : QRangeStore.t (Dict.t AgentState)) : list AgentState :=
  flat_map (fun r => match Dict.get (snd r) a with Some st => [st] | None => [] end) s.

(** Each element is strictly below the next one. *)
Fixpoint increasing (l : list float) : Prop :=
  match l with
  | [] => True
  | t :: rest =>
      match rest with
      | [] => True
      | t' :: _ => (t <? t')%float = true
      end /\ increasing rest
  end.

(** Every recorded state of an agent has the mass of a seed state of that
    agent. *)
Definition mass_kept (seed : Dict.t AgentState) (w : world) : Prop :=
  forall l h v a s,
    In (l, h, v) (store w) -> In (a, s) v -> exists s0, In (a, s0) seed /\ m s = m s0.


(** The recorded times of every agent increase, and an agent's cursor is the
    time of its last recorded state. *)
Definition times_increase (w : world) : Prop :=
  forall a,
    increasing (map time (history a (store w)))
    /\ forall t, Dict.get (times w) a = Some t ->
                 exists pre s, history a (store w) = pre ++ [s] /\ time s = t.

(** The Planet's state after its first propagation, from the seed. *)
Definition planet_first : AgentState :=
  match propagate (L := correctly_rounded) "Planet" init with
  | Ok s => s
  | Raise _ => mkAgent "Earth" 0 0.02 0 0 (-0.01) 0 1000
  end.

(** A tick that commits: the gate is open, [propagate] returns [ns] from the
    agent's state [s] in the snapshot, the new range is valid, and the tick
    appends exactly that record and moves the agent's cursor. *)
Definition commits {L : Libm} (seed : Dict.t AgentState)
    (obs : nat -> float -> AgentState -> AgentState -> bool)
    (p : nat) (a : string) (w : world) : Prop :=
  exists t s ns,
    Dict.get (times w) a = Some t
    /\ Dict.set_eqb (Dict.keys (snapshot w (t - 0.001)%float)) (Dict.keys seed) = true
    /\ Dict.get (snapshot w (t - 0.001)%float) a = Some s
    /\ propagate a (snapshot w (t - 0.001)%float) = Ok ns
    /\ (t <? time ns)%float = true
    /\ obs p t s ns = true
    /\ tick seed a w
       = (Ok tt, mkWorld (store w ++ [(t, time ns, [(a, ns)])])
                         (Dict.set (times w) a (time ns))).

(** ** A windowed replay of the loop

    Replaying the loop on the records that are still alive (those whose
    upper end lies above a bound [B] no later query goes below) costs a
    constant amount of work per tick; [windowed_ticks_sound] shows that a
    successful replay describes the loop itself. *)

Definition alive {V} (B : float) (r : float * float * V) : bool :=
  negb (snd (fst r) <=? B)%float.

Definition windowed_tick {L : Libm} (seed : Dict.t AgentState)
    (obs : nat -> float -> AgentState -> AgentState -> bool)
    (p : nat) (a : string) (st : float * world) : option (float * world) :=
  let '(B, w) := st in
  match Dict.get (times w) a with
  | None => None
  | Some t =>
      let q := (t - 0.001)%float in
      if negb (B <=? q)%float then None else
      let R := filter (alive q) (store w) in
      let u := merge (QRangeStore.comprehension R q) in
      if negb (Dict.set_eqb (Dict.keys u) (Dict.keys seed)) then None else
      match Dict.get u a, propagate a u with
      | Some s, Ok ns =>
          if (t <? time ns)%float && obs p t s ns then
            Some (q, mkWorld (R ++ filter (alive q) [(t, time ns, [(a, ns)])])
                             (Dict.set (times w) a (time ns)))
          else None
      | _, _ => None
      end
  end.

Fixpoint windowed_ticks {L : Libm} (seed : Dict.t AgentState)
    (obs : nat -> float -> AgentState -> AgentState -> bool)
    (sched : list (nat * string)) (st : float * world) : bool :=
  match sched with
  | [] => true
  | (p, a) :: rest =>
      match windowed_tick seed obs p a st with
      | Some st' => windowed_ticks seed obs rest st'
      | None => false
      end
  end.

(** What is checked at every tick of the run of [main]: the state the agent
    is propagated from carries the agent's cursor as its time, and its
    [time_step] is the seed's 0.02 in the first pass and 1.0 afterwards. *)
Definition unit_step_after_first (p : nat) (t : float) (s ns : AgentState) : bool :=
  PrimFloat.Leibniz.eqb (time s) t
  && PrimFloat.Leibniz.eqb (time_step s) (if Nat.eqb p 0 then 0.02 else 1.0)%float.

(** ** Signs of specified floats *)

Definition nonneg (f : spec_float) : Prop :=
  match f with
  | S754_nan => True
  | S754_infinity s | S754_zero s | S754_finite s _ _ => s = false
  end.

(** ** The integration step as the specification words it *)

Section Reference.
Local Open Scope float_scope.
Variable agentId : string.
Variable self : AgentState.

(** Every other agent of the snapshot, in the snapshot's order. *)
Definition others (universe : Dict.t AgentState) : list AgentState :=
  map snd (filter (fun kv => negb (String.eqb (fst kv) agentId)) universe).

Definition distance (b : AgentState) : float :=
  let dx := x b - x self in
  let dy := y b - y self in
  PrimFloat.sqrt (dx * dx + dy * dy).

Definition force_magnitude (b : AgentState) : float :=
  gravitational_constant * m self * m b / distance b * distance b.

Definition force_x (bs : list AgentState) : float :=
  fold_left (fun acc b => acc + force_magnitude b * (x b - x self) / distance b) bs 0.

Definition force_y (bs : list AgentState) : float :=
  fold_left (fun acc b => acc + force_magnitude b * (y b - y self) / distance b) bs 0.

(** [sq] is the value of [time_step ** 2]. *)
Definition propagated (sq : float) (universe : Dict.t AgentState) : AgentState :=
  let dt := time_step self in
  let accel_x := force_x (others universe) / m self in
  let accel_y := force_y (others universe) / m self in
  {| name := name self;
     time := time self + dt;
     time_step := 1.0;
     x := x self + (vx self * dt + 0.5 * accel_x * sq);
     y := y self + (vy self * dt + 0.5 * accel_y * sq);
     vx := vx self + accel_x * dt;
     vy := vy self + accel_y * dt;
     m := m self |}.

End Reference.

(** Three snapshots on which [propagate] raises although the positions
    differ: a massless agent, a distance whose square underflows, and a
    step whose square overflows. *)
Definition massless : Dict.t AgentState :=
  [ ("A", mkAgent "a" 0 1 0 0 0 0 0); ("B", mkAgent "b" 0 1 1 0 0 0 1) ]%float.
Definition too_close : Dict.t AgentState :=
  [ ("A", mkAgent "a" 0 1 0 0 0 0 1); ("B", mkAgent "b" 0 1 1e-200 0 0 0 1) ]%float.
Definition long_step : Dict.t AgentState :=
  [ ("A", mkAgent "a" 0 1e200 0 0 0 0 1); ("B", mkAgent "b" 0 1 1 0 0 0 1) ]%float.

(** A seed whose only agent does not move in time: its first insertion is
    rejected. *)
Definition still : Dict.t AgentState :=
  [ ("A", mkAgent "a" 0 0 0 0 0 0 1) ]%float.

(** Two bodies at the same place. *)
Definition coincident : Dict.t AgentState :=
  [ ("A", mkAgent "a" 0 0.02 1 2 0 0 5); ("B", mkAgent "b" 0 0.02 1 2 0 0 7) ]%float.

(** ** Further specification-side definitions *)

(** The operations of a batch up to the first one whose range is not valid. *)
Fixpoint valid_prefix {V} (ops : list (float * float * V)) : list (float * float * V) :=
  match ops with
  | [] => []
  | (l, h, v) :: rest => if (l <? h)%float then (l, h, v) :: valid_prefix rest else []
  end.

(** [store[rng] = value] for every [(rng, value)] of a batch, in order. *)
Definition insert_all {V} (ops : list (float * float * V)) : M (QRangeStore.t V) unit :=
  for_each ops (fun r => QRangeStore.__setitem__ (fst r) (snd r)).

(** Two snapshots with the same keys in the same order whose bodies agree
    on position and mass. *)
Definition same_bodies (u u' : Dict.t AgentState) : Prop :=
  Forall2 (fun kv kv' => fst kv = fst kv'
                         /\ x (snd kv) = x (snd kv')
                         /\ y (snd kv) = y (snd kv')
                         /\ m (snd kv) = m (snd kv')) u u'.

(** How a run of the loop can end. *)
Definition loop_outcome (r : result unit) : Prop :=
  r = Ok tt
  \/ r = Raise ZeroDivisionError
  \/ r = Raise OverflowError
  \/ r = Raise (IndexError "Invalid Range.").

(** The seed record, first in the store. *)
Definition seed_record (seed : Dict.t AgentState) : float * float * Dict.t AgentState :=
  ((-999999999)%float, 0%float, seed).

(** The ranges of the records that hold a state of agent [a], in store
    order. *)
Definition windows (a : string) (s : QRangeStore.t (Dict.t AgentState))
  : list (float * float) :=
  flat_map (fun r => match Dict.get (snd r) a with Some _ => [fst r] | None => [] end) s.

(** The ranges lead from [from] to [to] without a gap: the first starts at
    [from], each next one starts where the one before ended, the last ends
    at [to]. *)
Fixpoint linked (from : float) (l : list (float * float)) (to : float) : Prop :=
  match l with
  | [] => from = to
  | (lo, hi) :: rest => lo = from /\ linked hi rest to
  end.

(** Every agent of the seed has a cursor. *)
Definition cursors_present (seed : Dict.t AgentState) (w : world) : Prop :=
  forall a, In a (Dict.keys seed) -> Dict.get (times w) a <> None.

(** A record committed by a tick: one agent of the seed, whose state has the
    upper end of the range as its time and 1.0 as its [time_step]. *)
Definition committed_shape (seed : Dict.t AgentState)
    (r : float * float * Dict.t AgentState) : Prop :=
  exists a ns, snd r = [(a, ns)] /\ In a (Dict.keys seed)
               /\ time ns = snd (fst r) /\ time_step ns = 1.0%float.

(** The store is the seed record followed by committed records. *)
Definition shaped (seed : Dict.t AgentState) (w : world) : Prop :=
  exists rest, store w = seed_record seed :: rest /\ Forall (committed_shape seed) rest.

(** After the seed record, the ranges of every agent lead from its seed
    time to its cursor. *)
Definition tiled (seed : Dict.t AgentState) (w : world) : Prop :=
  exists rest,
    store w = seed_record seed :: rest
    /\ forall a s0 t,
         Dict.get seed a = Some s0 -> Dict.get (times w) a = Some t ->
         linked (time s0) (windows a rest) t.

(** From [w] to [w'] the cursor map kept its keys and no cursor moved
    back. *)
Definition cursors_from (w w' : world) : Prop :=
  Dict.keys (times w') = Dict.keys (times w)
  /\ forall a t, Dict.get (times w) a = Some t ->
                 exists t', Dict.get (times w') a = Some t'
                            /\ (t' = t \/ (t <? t')%float = true).

(** On this platform [0.02 ** 2] is the correctly rounded square, 0.0004. *)
Definition squares_seed_step (L : Libm) : Prop :=
  PyFloat.pow2 0.02%float = Ok 0.0004%float.



(** A seed with a body so far away that the square of the coordinate
    difference overflows. *)
Definition far : Dict.t AgentState :=
  [ ("A", mkAgent "a" 0 1 0 0 0 0 1); ("B", mkAgent "b" 0 1 1e200 0 0 0 1) ]%float.

(** A seed whose only agent starts at time 1, which no record covers. *)
Definition late : Dict.t AgentState :=
  [ ("A", mkAgent "a" 1 0.02 0 0 0 0 1) ]%float.

(** A snapshot like [init] with other names, times, steps and velocities. *)
Definition init_renamed : Dict.t AgentState :=
  [ ("Planet",    mkAgent "Earth" 0 0.02 0 0 (-0.01) 0 1000);
    ("Satellite", mkAgent "Luna" 7 0.5 0 5 3 4 1000);
    ("Sun",       mkAgent "Sol" 9 1 10 2.5 1 1 10000) ]%float.

(** * Properties *)

(** ** Order and sign of binary64 numbers *)

Module FloatOrder.
Local Open Scope float_scope.

Ltac cmp_cases :=
  repeat match goal with
    | H : context [Z.compare ?a ?b] |- _ => destruct (Z.compare_spec a b); simpl in H
    | H : context [Pos.compare_cont Eq ?a ?b] |- _ =>
        change (Pos.compare_cont Eq a b) with (Pos.compare a b) in H;
        destruct (Pos.compare_spec a b); simpl in H
    | |- context [Z.compare ?a ?b] => destruct (Z.compare_spec a b); simpl
    | |- context [Pos.compare_cont Eq ?a ?b] =>
        change (Pos.compare_cont Eq a b) with (Pos.compare a b);
        destruct (Pos.compare_spec a b); simpl
    end;
  try discriminate; try reflexivity; try lia.

Lemma SFleb_trans a b c :
  SFleb a b = true -> SFleb b c = true -> SFleb a c = true.
Proof.
  unfold SFleb.
  destruct a as [[|]|[|]| |[|] ma ea], b as [[|]|[|]| |[|] mb eb],
           c as [[|]|[|]| |[|] mc ec]; simpl; intros H1 H2;
    try discriminate; try reflexivity; cmp_cases.
Qed.

Lemma SFleb_not_ltb a b : SFleb a b = true -> SFltb b a = false.
Proof.
  unfold SFleb, SFltb.
  destruct a as [[|]|[|]| |[|] ma ea], b as [[|]|[|]| |[|] mb eb]; simpl; intros H1;
    try discriminate; try reflexivity; cmp_cases.
Qed.

Lemma SFleb_refl_r a b : SFleb a b = true -> SFleb b b = true.
Proof.
  unfold SFleb.
  destruct a as [[|]|[|]| |[|] ma ea], b as [[|]|[|]| |[|] mb eb]; simpl; intros H1;
    try discriminate; try reflexivity; cmp_cases.
Qed.

Lemma SFltb_total a b :
  SFltb a b = negb (SFleb b a) && SFeqb a a && SFeqb b b.
Proof.
  unfold SFleb, SFltb, SFeqb.
  destruct a as [[|]|[|]| |[|] ma ea], b as [[|]|[|]| |[|] mb eb]; simpl;
    try reflexivity; cmp_cases.
Qed.

Lemma leb_trans a b c : (a <=? b) = true -> (b <=? c) = true -> (a <=? c) = true.
Proof. rewrite !leb_spec. apply SFleb_trans. Qed.

Lemma leb_not_ltb a b : (a <=? b) = true -> (b <? a) = false.
Proof. rewrite leb_spec, ltb_spec. apply SFleb_not_ltb. Qed.

Lemma leb_refl_r a b : (a <=? b) = true -> (b <=? b) = true.
Proof. rewrite !leb_spec. apply SFleb_refl_r. Qed.

(** [a < b] is [not (b <= a)] exactly when neither is a NaN. *)
Lemma ltb_total a b :
  (a <? b) = negb (b <=? a) && negb (is_nan a) && negb (is_nan b).
Proof.
  unfold is_nan. rewrite !negb_involutive, ltb_spec, leb_spec, !eqb_spec.
  apply SFltb_total.
Qed.

Lemma binary_round_aux_nonneg mx ex lx :
  nonneg (binary_round_aux prec emax false mx ex lx).
Proof.
  unfold binary_round_aux.
  destruct (shr_fexp prec emax mx ex lx) as [mrs' e'].
  destruct (shr_fexp prec emax _ e' loc_Exact) as [mrs'' e''].
  destruct (shr_m mrs''); simpl; auto.
  destruct (Z.leb e'' _); simpl; auto.
Qed.

Lemma SFmul_self_nonneg f : nonneg (SF64mul f f).
Proof.
  destruct f as [s|s| |s mf ef]; simpl; try (destruct s; reflexivity); auto.
  unfold SF64mul, SFmul. rewrite xorb_nilpotent. apply binary_round_aux_nonneg.
Qed.

Lemma SFadd_nonneg f g : nonneg f -> nonneg g -> nonneg (SF64add f g).
Proof.
  destruct f as [s|s| |s mf ef], g as [t|t| |t mg eg]; simpl; intros Hf Hg;
    subst; simpl; auto.
  unfold SF64add, SFadd, cond_Zopp. simpl Z.add. unfold binary_normalize, binary_round.
  match goal with |- nonneg (let '(_, _) := ?p in _) => destruct p end.
  apply binary_round_aux_nonneg.
Qed.

Lemma nonneg_not_ltb_zero f : nonneg f -> SFltb f (S754_zero false) = false.
Proof. destruct f as [s|s| |s mf ef]; simpl; intros H; subst; reflexivity. Qed.

(** A sum of two squares is never below zero, so [math.sqrt] accepts it. *)
Lemma sum_of_squares_not_neg a b : (a * a + b * b <? 0) = false.
Proof.
  rewrite ltb_spec, add_spec, !mul_spec.
  change (Prim2SF 0) with (S754_zero false).
  apply nonneg_not_ltb_zero, SFadd_nonneg; apply SFmul_self_nonneg.
Qed.

End FloatOrder.

(** ** Dictionaries *)

Module DictFacts.
Import Dict.

Section WithValues.
Context {V : Type}.
Implicit Types (d : Dict.t V) (k : string) (v : V).

Lemma get_set_same d k v : get (set d k v) k = Some v.
Proof.
  induction d as [|[k' v'] d IH]; simpl.
  - now rewrite String.eqb_refl.
  - destruct (String.eqb k' k) eqn:E; simpl; now rewrite E.
Qed.

Lemma get_set_other d k k' v : k <> k' -> get (set d k v) k' = get d k'.
Proof.
  intros N. induction d as [|[k0 v0] d IH]; simpl.
  - destruct (String.eqb_spec k k'); congruence.
  - destruct (String.eqb_spec k0 k); simpl.
    + subst. destruct (String.eqb_spec k k'); congruence.
    + now rewrite IH.
Qed.

Lemma get_In d k v : get d k = Some v -> In (k, v) d.
Proof.
  induction d as [|[k' v'] d IH]; simpl; [discriminate|].
  destruct (String.eqb_spec k' k); intros H.
  - left. congruence.
  - right. auto.
Qed.

Lemma get_None d k : get d k = None <-> ~ In k (keys d).
Proof.
  induction d as [|[k' v'] d IH]; simpl; [tauto|].
  destruct (String.eqb_spec k' k); split; intros H.
  - discriminate.
  - exfalso. apply H. now left.
  - intros [?|?]; [congruence|]. now apply IH.
  - apply IH. tauto.
Qed.

Lemma In_get d k v : NoDup (keys d) -> In (k, v) d -> get d k = Some v.
Proof.
  induction d as [|[k' v'] d IH]; simpl; [tauto|].
  intros ND [E|I].
  - injection E as -> ->. now rewrite String.eqb_refl.
  - inversion ND as [|? ? N ND']; subst.
    destruct (String.eqb_spec k' k) as [->|_]; [|now apply IH].
    exfalso. apply N. change k with (fst (k, v)). now apply in_map.
Qed.

Lemma keys_set d k v k' : In k' (keys (set d k v)) <-> k' = k \/ In k' (keys d).
Proof.
  induction d as [|[k0 v0] d IH]; simpl.
  - intuition congruence.
  - destruct (String.eqb_spec k0 k); simpl.
    + subst. intuition congruence.
    + rewrite IH. intuition congruence.
Qed.

Lemma In_set d k v kv : In kv (set d k v) -> kv = (k, v) \/ In kv d.
Proof.
  induction d as [|[k0 v0] d IH]; simpl.
  - intuition congruence.
  - destruct (String.eqb_spec k0 k); simpl.
    + subst. intuition congruence.
    + intros [?|?]; [auto|]. destruct (IH H); auto.
Qed.

Lemma NoDup_set d k v : NoDup (keys d) -> NoDup (keys (set d k v)).
Proof.
  induction d as [|[k0 v0] d IH]; simpl; intros ND.
  - constructor; [intros []|constructor].
  - inversion ND as [|? ? N ND']; subst.
    destruct (String.eqb_spec k0 k); simpl.
    + now constructor.
    + constructor; [|now apply IH].
      rewrite keys_set. intros [?|?]; [congruence|contradiction].
Qed.

Lemma In_or d1 d2 kv : In kv (or d1 d2) -> In kv d1 \/ In kv d2.
Proof.
  unfold or. revert d1. induction d2 as [|[k v] d2 IH]; simpl; intros d1 H; [auto|].
  destruct (IH _ H) as [H1|H1]; [|auto].
  destruct (In_set _ _ _ _ H1); auto.
Qed.

Lemma keys_or d1 d2 k : In k (keys (or d1 d2)) <-> In k (keys d1) \/ In k (keys d2).
Proof.
  unfold or. revert d1. induction d2 as [|[k' v] d2 IH]; simpl; intros d1; [tauto|].
  rewrite IH, keys_set. intuition congruence.
Qed.

Lemma NoDup_or d1 d2 : NoDup (keys d1) -> NoDup (keys (or d1 d2)).
Proof.
  unfold or. revert d1. induction d2 as [|[k v] d2 IH]; simpl; intros d1 ND; [auto|].
  apply IH, NoDup_set, ND.
Qed.

(** Overlaying a well-formed [d2]: its bindings win, the others stay. *)
Lemma get_or d1 d2 k :
  NoDup (keys d2) ->
  get (or d1 d2) k = match get d2 k with Some v => Some v | None => get d1 k end.
Proof.
  unfold or. revert d1. induction d2 as [|[k' v] d2 IH]; simpl; intros d1 ND; [reflexivity|].
  inversion ND as [|? ? N ND']; subst. rewrite (IH _ ND').
  destruct (String.eqb_spec k' k) as [->|Ne].
  - apply get_None in N. now rewrite N, get_set_same.
  - destruct (get d2 k); [reflexivity|]. now apply get_set_other.
Qed.

Lemma fold_or_In (data : list (Dict.t V)) d kv :
  In kv (fold_left (@or V) data d) -> In kv d \/ exists d', In d' data /\ In kv d'.
Proof.
  revert d. induction data as [|d0 data IH]; simpl; intros d H; [auto|].
  destruct (IH _ H) as [H1|(d' & I & H1)].
  - destruct (In_or _ _ _ H1); [auto|]. right. exists d0. auto.
  - right. exists d'. auto.
Qed.

Lemma fold_or_keys (data : list (Dict.t V)) d k :
  In k (keys (fold_left (@or V) data d))
  <-> In k (keys d) \/ exists d', In d' data /\ In k (keys d').
Proof.
  revert d. induction data as [|d0 data IH]; simpl; intros d.
  - split; [auto|]. intros [?|(? & [] & _)]. assumption.
  - rewrite IH, keys_or. split.
    + intros [[?|?]|(d' & ? & ?)]; [auto| |]; right; eauto.
    + intros [?|(d' & [->|?] & ?)]; [auto|auto|]. right. eauto.
Qed.

Lemma fold_or_get (data : list (Dict.t V)) d k :
  Forall (fun d' => NoDup (keys d')) data ->
  get (fold_left (@or V) data d) k
  = match latest data k with Some v => Some v | None => get d k end.
Proof.
  revert d. induction data as [|d0 data IH]; simpl; intros d F; [reflexivity|].
  inversion F as [|? ? ND F']; subst. rewrite (IH _ F').
  destruct (latest data k); [reflexivity|]. now apply get_or.
Qed.

Lemma fold_or_NoDup (data : list (Dict.t V)) d :
  NoDup (keys d) -> NoDup (keys (fold_left (@or V) data d)).
Proof.
  revert d. induction data as [|d0 data IH]; simpl; intros d ND; [auto|].
  apply IH, NoDup_or, ND.
Qed.

End WithValues.

Lemma mem_In k l : mem k l = true <-> In k l.
Proof.
  unfold mem. rewrite existsb_exists. split.
  - intros (k' & I & E). apply String.eqb_eq in E. now subst.
  - intros I. exists k. split; [assumption|apply String.eqb_refl].
Qed.

Lemma superset_incl a b : superset a b = true <-> incl b a.
Proof.
  unfold superset. rewrite forallb_forall. unfold incl.
  split; intros H k I; [apply mem_In|apply mem_In]; auto.
Qed.

Lemma set_eqb_incl a b : set_eqb a b = true <-> incl a b /\ incl b a.
Proof.
  unfold set_eqb. rewrite andb_true_iff.
  change (forallb (fun k => mem k b) a) with (superset b a).
  change (forallb (fun k => mem k a) b) with (superset a b).
  now rewrite !superset_incl.
Qed.

(** When [a] has no key outside [b], equality of the key sets is
    inclusion of [b]. *)
Lemma set_eqb_superset a b : incl a b -> set_eqb a b = superset a b.
Proof.
  intros I. destruct (superset a b) eqn:E.
  - apply set_eqb_incl. split; [assumption|now apply superset_incl].
  - destruct (set_eqb a b) eqn:E'; [|reflexivity].
    apply set_eqb_incl in E'. destruct E' as [_ E'].
    apply superset_incl in E'. congruence.
Qed.

End DictFacts.

(** ** The interval store *)

Module QRangeStoreFacts.
Import QRangeStore.
Local Open Scope float_scope.

Lemma comprehension_filter V (s : t V) (p : float) :
  comprehension s p = map snd (filter (covers p) s).
Proof.
  induction s as [|[[l h] v] s IH]; simpl; [reflexivity|].
  destruct ((l <=? p) && (p <? h)); simpl; now rewrite IH.
Qed.

Lemma comprehension_app V (s1 s2 : t V) (p : float) :
  comprehension (s1 ++ s2) p = comprehension s1 p ++ comprehension s2 p.
Proof.
  rewrite !comprehension_filter, filter_app, map_app; reflexivity.
Qed.

Lemma comprehension_In V (s : t V) (p : float) (v : V) :
  In v (comprehension s p) -> exists l h, In (l, h, v) s.
Proof.
  rewrite comprehension_filter, in_map_iff.
  intros ([[l h] v'] & E & I). apply filter_In in I. simpl in E. subst.
  exists l, h. tauto.
Qed.

Lemma filter_nil_existsb A (f : A -> bool) (l : list A) :
  existsb f l = match filter f l with [] => false | _ => true end.
Proof.
  induction l as [|a l IH]; simpl; [reflexivity|].
  destruct (f a); simpl; auto.
Qed.

Lemma getitem_eq V (s : t V) (p : float) :
  __getitem__ p s =
  (if existsb (covers p) s
   then Ok (map snd (filter (covers p) s))
   else Raise (IndexError "Not found."), s).
Proof.
  unfold __getitem__, bind, gets, ret, raise.
  rewrite comprehension_filter, filter_nil_existsb.
  destruct (filter (covers p) s); reflexivity.
Qed.

Lemma setitem_eq V (s : t V) (low high : float) (v : V) :
  __setitem__ (low, high) v s =
  if low <? high then (Ok tt, s ++ [(low, high, v)])
  else (Raise (IndexError "Invalid Range."), s).
Proof.
  unfold __setitem__, raise, modify. destruct (low <? high); reflexivity.
Qed.

End QRangeStoreFacts.

(** The examples of the class documentation. *)
Example documented_queries :
  fst (QRangeStore.__setitem__ (2, 0)%float "Record F" documented)
  = Raise (IndexError "Invalid Range.")
  /\ snd (QRangeStore.__setitem__ (2, 0)%float "Record F" documented) = documented
  /\ fst (QRangeStore.__getitem__ 2.1%float documented) = Ok ["Record A"; "Record D"]
  /\ fst (QRangeStore.__getitem__ 8%float documented) = Ok ["Record E"]
  /\ fst (QRangeStore.__getitem__ 5%float documented) = Raise (IndexError "Not found.")
  /\ fst (QRangeStore.__getitem__ 9%float documented) = Raise (IndexError "Not found.").
Proof. repeat split; reflexivity. Qed.

(** C1.  A query at [p] answers with the values of exactly the records whose
    range [low, high) holds [p] ([covers p]: [low <= p < high]), in insertion
    order, leaves the store as it is, and raises IndexError("Not found.")
    when there is no such record; on the store holding [0,3) -> "A" and
    [2,4) -> "D" the queries 2.5, 3.5 and 5 give ["A"; "D"], ["D"] and the
    error. *)
Theorem query_returns_covering_values :
  (forall V (s : QRangeStore.t V) (p : float),
      QRangeStore.__getitem__ p s =
      (if existsb (covers p) s
       then Ok (map snd (filter (covers p) s))
       else Raise (IndexError "Not found."), s))
  /\ scenario = [(0, 3, "A"); (2, 4, "D")]%float
  /\ fst (QRangeStore.__getitem__ 2.5%float scenario) = Ok ["A"; "D"]
  /\ fst (QRangeStore.__getitem__ 3.5%float scenario) = Ok ["D"]
  /\ fst (QRangeStore.__getitem__ 5%float scenario) = Raise (IndexError "Not found.").
Proof.
  split; [|repeat split; reflexivity].
  intros V s p. apply QRangeStoreFacts.getitem_eq.
Qed.

(** C2 as stated does not hold: with a NaN as [low] the insertion is
    rejected although [low >= high] is false. *)
Lemma insert_rejects_unordered_nan :
  ~ (forall (s : QRangeStore.t string) (low high : float) (v : string),
        fst (QRangeStore.__setitem__ (low, high) v s) = Raise (IndexError "Invalid Range.")
        <-> (high <=? low)%float = true).
Proof.
  intros H. destruct (H [] nan 1%float "v") as [H1 _].
  specialize (H1 eq_refl). discriminate H1.
Qed.

(** C2, amended.  An insertion is rejected with IndexError("Invalid Range.")
    exactly when [low < high] does not hold, and then the record sequence is
    what it was; otherwise exactly the record [(low, high, value)] is added
    at the end.  [low < high] fails exactly when [low >= high] or one of the
    two is a NaN. *)
Theorem insert_checks_low_below_high :
  forall V (s : QRangeStore.t V) (low high : float) (v : V),
    QRangeStore.__setitem__ (low, high) v s
    = (if (low <? high)%float then (Ok tt, s ++ [(low, high, v)])
       else (Raise (IndexError "Invalid Range."), s))
    /\ (low <? high)%float
       = negb (high <=? low)%float && negb (is_nan low) && negb (is_nan high).
Proof.
  intros V s low high v. split.
  - apply QRangeStoreFacts.setitem_eq.
  - apply FloatOrder.ltb_total.
Qed.

(** ** Merging *)

Lemma merge_snoc V (data : list (Dict.t V)) (d : Dict.t V) :
  merge (data ++ [d]) = Dict.or (merge data) d.
Proof. unfold merge. now rewrite fold_left_app. Qed.

Lemma merge_In V (data : list (Dict.t V)) kv :
  In kv (merge data) -> exists d, In d data /\ In kv d.
Proof.
  intros H. destruct (DictFacts.fold_or_In _ _ _ H) as [[]|H']. exact H'.
Qed.

Lemma merge_keys V (data : list (Dict.t V)) k :
  In k (Dict.keys (merge data)) <-> exists d, In d data /\ In k (Dict.keys d).
Proof.
  unfold merge. rewrite DictFacts.fold_or_keys. simpl. tauto.
Qed.

Lemma merge_NoDup V (data : list (Dict.t V)) : NoDup (Dict.keys (merge data)).
Proof. apply DictFacts.fold_or_NoDup. constructor. Qed.

(** C3.  [merge] starts from the empty mapping and overlays the mappings
    from left to right: a key of a later mapping replaces the binding of an
    earlier one, a key the later mappings lack keeps its binding, so a
    lookup in the result finds the binding of the last mapping that has the
    key; [merge [{a: S1}; {a: S2}]] is [{a: S2}] and
    [merge [{a: S1}; {b: S2}]] is [{a: S1, b: S2}]. *)
Theorem merge_is_left_to_right_union :
  (forall V, @merge V [] = [])
  /\ (forall V (data : list (Dict.t V)) (d : Dict.t V),
         merge (data ++ [d]) = Dict.or (merge data) d)
  /\ (forall V (d1 d2 : Dict.t V) (k : string),
         wf_dict d2 ->
         Dict.get (Dict.or d1 d2) k
         = match Dict.get d2 k with Some v => Some v | None => Dict.get d1 k end)
  /\ (forall V (data : list (Dict.t V)) (k : string),
         Forall wf_dict data -> Dict.get (merge data) k = latest data k)
  /\ (forall V (S1 S2 : V), merge [[("a", S1)]; [("a", S2)]] = [("a", S2)])
  /\ (forall V (S1 S2 : V), merge [[("a", S1)]; [("b", S2)]] = [("a", S1); ("b", S2)]).
Proof.
  repeat split; try reflexivity.
  - intros. apply merge_snoc.
  - intros V d1 d2 k W. now apply DictFacts.get_or.
  - intros V data k F. unfold merge. rewrite DictFacts.fold_or_get by exact F.
    simpl. now destruct (latest data k).
Qed.

Lemma merge_is_left_to_right_union_witness :
  Forall wf_dict [[("a", 1)]; [("a", 2); ("b", 3)]]
  /\ Dict.get (merge [[("a", 1)]; [("a", 2); ("b", 3)]]) "a"
     = latest [[("a", 1)]; [("a", 2); ("b", 3)]] "a".
Proof.
  assert (W : Forall wf_dict [[("a", 1)]; [("a", 2); ("b", 3)]]).
  { repeat constructor; simpl; intuition discriminate. }
  split; [exact W|].
  exact (proj1 (proj2 (proj2 (proj2 merge_is_left_to_right_union))) nat _ "a" W).
Defined.

(** ** The loop, tick by tick *)

Section Loop.
Context {platform : Libm}.
Variable seed : Dict.t AgentState.
Local Open Scope float_scope.

Lemma world_eta w : mkWorld (store w) (times w) = w.
Proof. now destruct w. Qed.

Lemma read_eq t w : read t w = (Ok (snapshot w t), w).
Proof.
  unfold read, bind, except_IndexError, on_store, snapshot.
  unfold QRangeStore.__getitem__, bind, gets, ret, raise.
  destruct (QRangeStore.comprehension (store w) t) eqn:E;
    simpl; now rewrite ?world_eta.
Qed.

Lemma setup_eq :
  setup seed empty_world
  = (Ok tt, mkWorld [(-999999999, 0, seed)]
                    (map (fun kv => (fst kv, time (snd kv))) seed)).
Proof. reflexivity. Qed.

(** The tick, step by step. *)
Lemma tick_eq a w :
  tick seed a w =
  match Dict.get (times w) a with
  | None => (Raise (KeyError a), w)
  | Some t =>
      let u := snapshot w (t - 0.001) in
      if Dict.set_eqb (Dict.keys u) (Dict.keys seed) then
        match propagate a u with
        | Raise e => (Raise e, w)
        | Ok ns =>
            if t <? time ns then
              (Ok tt, mkWorld (store w ++ [(t, time ns, [(a, ns)])])
                              (Dict.set (times w) a (time ns)))
            else (Raise (IndexError "Invalid Range."), w)
        end
      else (Ok tt, w)
  end.
Proof.
  unfold tick, bind at 1, times_get.
  destruct (Dict.get (times w) a) as [t|]; [|reflexivity].
  unfold bind at 1. rewrite read_eq. cbv zeta.
  destruct (Dict.set_eqb _ _); [|reflexivity].
  unfold bind at 1, lift.
  destruct (propagate a (snapshot w (t - 0.001))) as [ns|e]; [|reflexivity].
  unfold bind, on_store, times_set, modify.
  rewrite QRangeStoreFacts.setitem_eq.
  destruct (t <? time ns); simpl; [reflexivity|now rewrite world_eta].
Qed.

(** A tick either leaves the world as it is or commits one record. *)
Lemma tick_outcome a w :
  snd (tick seed a w) = w
  \/ exists t ns,
      Dict.get (times w) a = Some t
      /\ Dict.set_eqb (Dict.keys (snapshot w (t - 0.001))) (Dict.keys seed) = true
      /\ propagate a (snapshot w (t - 0.001)) = Ok ns
      /\ (t <? time ns) = true
      /\ tick seed a w
         = (Ok tt, mkWorld (store w ++ [(t, time ns, [(a, ns)])])
                           (Dict.set (times w) a (time ns))).
Proof.
  rewrite tick_eq. destruct (Dict.get (times w) a) as [t|]; [|now left].
  cbv zeta. destruct (Dict.set_eqb _ _) eqn:G; [|now left].
  destruct (propagate a _) as [ns|e] eqn:P; [|now left].
  destruct (t <? time ns) eqn:L; [|now left].
  right. exists t, ns. auto.
Qed.

(** *** Loops and invariants *)

Lemma for_each_inv S A (I : S -> Prop) (body : A -> M S unit) (l : list A) :
  (forall a s, I s -> I (snd (body a s))) ->
  forall s, I s -> I (snd (for_each l body s)).
Proof.
  intros Hb. induction l as [|a l IH]; simpl; intros s Hs; [exact Hs|].
  unfold bind. specialize (Hb a s Hs).
  destruct (body a s) as [[[]|e] s']; simpl in *; auto.
Qed.

Lemma for_range_inv S (I : S -> Prop) (body : M S unit) (n : nat) :
  (forall s, I s -> I (snd (body s))) ->
  forall s, I s -> I (snd (for_range n body s)).
Proof.
  intros Hb. induction n as [|n IH]; simpl; intros s Hs; [exact Hs|].
  unfold bind. specialize (Hb s Hs).
  destruct (body s) as [[[]|e] s']; simpl in *; auto.
Qed.

Lemma program_eq n : program seed n empty_world = loop seed n (start seed).
Proof. reflexivity. Qed.

(** What holds at the start and is kept by every tick holds after the
    program, whether it ended normally or not. *)
Lemma program_inv (I : world -> Prop) (n : nat) :
  I (start seed) ->
  (forall a w, I w -> I (snd (tick seed a w))) ->
  I (snd (program seed n empty_world)).
Proof.
  intros H0 Ht. rewrite program_eq. unfold loop, pass.
  apply for_range_inv; [|exact H0].
  intros s Hs. apply for_each_inv; auto.
Qed.

Lemma for_each_app S A (body : A -> M S unit) (l1 l2 : list A) (s : S) :
  for_each (l1 ++ l2) body s = bind (for_each l1 body) (fun _ => for_each l2 body) s.
Proof.
  revert s. induction l1 as [|a l1 IH]; simpl; intros s; [reflexivity|].
  unfold bind in *. destruct (body a s) as [[[]|e] s']; [apply IH|reflexivity].
Qed.

Lemma for_each_map S A B (f : A -> B) (body : B -> M S unit) (l : list A) (s : S) :
  for_each (map f l) body s = for_each l (fun a => body (f a)) s.
Proof.
  revert s. induction l as [|a l IH]; simpl; intros s; [reflexivity|].
  unfold bind. destruct (body (f a) s) as [[[]|e] s']; auto.
Qed.

(** The nested loops perform the ticks of [schedule] in order. *)
Lemma loop_schedule_from (n p : nat) (w : world) :
  loop seed n w
  = for_each (flat_map (fun p => map (pair p) (Dict.keys seed)) (seq p n))
             (fun pa => tick seed (snd pa)) w.
Proof.
  revert p w. induction n as [|n IH]; intros p w; [reflexivity|].
  cbn [seq flat_map]. rewrite for_each_app.
  unfold loop. cbn [for_range]. unfold bind.
  rewrite for_each_map. cbn [snd].
  change (fun a : string => tick seed a) with (tick seed). fold (pass seed).
  destruct (pass seed w) as [[[]|e] w']; [|reflexivity].
  apply (IH (S p)).
Qed.

Lemma loop_schedule (n : nat) (w : world) :
  loop seed n w = for_each (schedule seed n) (fun pa => tick seed (snd pa)) w.
Proof. apply loop_schedule_from. Qed.

Lemma schedule_length n :
  (List.length (schedule seed n) = n * List.length (Dict.keys seed))%nat.
Proof.
  unfold schedule. generalize 0%nat.
  induction n as [|n IH]; intros p; [reflexivity|].
  cbn [seq flat_map]. rewrite length_app, length_map, IH. reflexivity.
Qed.

Lemma all_ticks_impl (P Q : nat -> string -> world -> Prop) sched w :
  (forall p a w, P p a w -> Q p a w) ->
  all_ticks seed P sched w -> all_ticks seed Q sched w.
Proof.
  intros PQ. revert w. induction sched as [|[p a] sched IH]; simpl; intros w; [auto|].
  intros [H1 H2]. split; auto.
Qed.

(** When every tick returns normally the loop does, and conversely. *)
Lemma for_each_ticks_ok sched w :
  fst (for_each sched (fun pa => tick seed (snd pa)) w) = Ok tt
  <-> all_ticks seed (fun _ a w => fst (tick seed a w) = Ok tt) sched w.
Proof.
  revert w. induction sched as [|[p a] sched IH]; simpl; intros w; [tauto|].
  unfold bind. destruct (tick seed a w) as [[[]|e] w']; simpl.
  - rewrite IH. tauto.
  - split; [discriminate|]. intros [H _]. discriminate.
Qed.

Lemma for_each_ticks_after sched w :
  fst (for_each sched (fun pa => tick seed (snd pa)) w) = Ok tt ->
  snd (for_each sched (fun pa => tick seed (snd pa)) w) = after seed sched w.
Proof.
  revert w. induction sched as [|[p a] sched IH]; simpl; intros w; [reflexivity|].
  unfold bind. destruct (tick seed a w) as [[[]|e] w'] eqn:E; simpl.
  - intros H. now apply IH.
  - discriminate.
Qed.

(** Each tick that returns either commits one record or is blocked. *)
Lemma count_records sched w :
  all_ticks seed (fun _ a w => fst (tick seed a w) = Ok tt) sched w ->
  (List.length (store (after seed sched w)) + blocked_ticks seed sched w
   = List.length (store w) + List.length sched)%nat.
Proof.
  revert w. induction sched as [|[p a] sched IH]; cbn [all_ticks]; intros w.
  - intros _. simpl. lia.
  - intros [H1 H2]. specialize (IH _ H2).
    change (after seed ((p, a) :: sched) w)
      with (after seed sched (snd (tick seed a w))).
    cbn [blocked_ticks List.length].
    assert (E : (List.length (store (snd (tick seed a w)))
                 + (if gate_open seed a w then 0 else 1)
                 = List.length (store w) + 1)%nat).
    { unfold gate_open. rewrite tick_eq in H1 |- *.
      destruct (Dict.get (times w) a) as [t|]; [|discriminate].
      cbv zeta in *. destruct (Dict.set_eqb _ _); simpl; [|lia].
      destruct (propagate a _) as [ns|e]; [|discriminate].
      destruct (t <? time ns); [|discriminate]. simpl.
      rewrite length_app. simpl. lia. }
    lia.
Qed.

Lemma tick_adds_at_most_one a w :
  (List.length (store (snd (tick seed a w))) <= List.length (store w) + 1)%nat.
Proof.
  destruct (tick_outcome a w) as [->|(t & ns & _ & _ & _ & _ & ->)]; [lia|].
  simpl. rewrite length_app. simpl. lia.
Qed.

Lemma for_each_bound (sched : list (nat * string)) w :
  (List.length (store (snd (for_each sched (fun pa => tick seed (snd pa)) w)))
   <= List.length (store w) + List.length sched)%nat.
Proof.
  revert w. induction sched as [|[p a] sched IH]; simpl; intros w; [lia|].
  unfold bind. pose proof (tick_adds_at_most_one a w) as H.
  destruct (tick seed a w) as [[[]|e] w']; simpl in *; [|lia].
  specialize (IH w'). lia.
Qed.

Lemma program_ok_iff n :
  fst (program seed n empty_world) = Ok tt
  <-> all_ticks seed (fun _ a w => fst (tick seed a w) = Ok tt)
                (schedule seed n) (start seed).
Proof. rewrite program_eq, loop_schedule. apply for_each_ticks_ok. Qed.

Lemma program_after n :
  fst (program seed n empty_world) = Ok tt ->
  snd (program seed n empty_world) = after seed (schedule seed n) (start seed).
Proof. rewrite program_eq, loop_schedule. apply for_each_ticks_after. Qed.

Lemma program_bound n :
  (List.length (store (snd (program seed n empty_world)))
   <= 1 + n * List.length (Dict.keys seed))%nat.
Proof.
  rewrite program_eq, loop_schedule.
  pose proof (for_each_bound (schedule seed n) (start seed)) as H.
  rewrite schedule_length in H. exact H.
Qed.

Lemma program_count n :
  fst (program seed n empty_world) = Ok tt ->
  (List.length (store (snd (program seed n empty_world)))
   + blocked_ticks seed (schedule seed n) (start seed)
   = 1 + n * List.length (Dict.keys seed))%nat.
Proof.
  intros Hok. rewrite (program_after _ Hok).
  apply program_ok_iff in Hok.
  rewrite (count_records _ _ Hok), schedule_length. reflexivity.
Qed.

End Loop.

(** ** What [propagate] keeps *)

Section PropagateFacts.
Context {platform : Libm}.
Local Open Scope float_scope.

Ltac step_result :=
  match goal with
  | |- context [match ?c with Ok _ => _ | Raise _ => _ end] =>
      destruct c eqn:?; try discriminate
  end.

Lemma propagate_ok a u ns :
  propagate a u = Ok ns ->
  exists s, Dict.get u a = Some s
            /\ time ns = time s + time_step s
            /\ time_step ns = 1.0
            /\ m ns = m s
            /\ name ns = name s.
Proof.
  unfold propagate. destruct (Dict.get u a) as [s|]; [|discriminate].
  unfold rbind. repeat step_result.
  intros H. injection H as <-. exists s. simpl. auto.
Qed.

End PropagateFacts.

(** ** Invariants of the loop *)

Section Invariants.
Context {platform : Libm}.
Variable seed : Dict.t AgentState.
Local Open Scope float_scope.

Lemma all_ticks_inv (I : world -> Prop) (P : nat -> string -> world -> Prop) sched w :
  (forall a w, I w -> I (snd (tick seed a w))) ->
  (forall p a w, I w -> P p a w) ->
  I w -> all_ticks seed P sched w.
Proof.
  intros Ht HP. revert w. induction sched as [|[p a] sched IH]; simpl; intros w Hw; auto.
Qed.

Lemma snapshot_In w t a s :
  In (a, s) (snapshot w t) -> exists l h v, In (l, h, v) (store w) /\ In (a, s) v.
Proof.
  intros H. apply merge_In in H. destruct H as (d & Hd & Hin).
  apply QRangeStoreFacts.comprehension_In in Hd. destruct Hd as (l & h & Hd).
  exists l, h, d. auto.
Qed.

(** *** Stored keys are seed keys *)

Lemma keys_within_start : keys_within seed (start seed).
Proof.
  intros l h v k [E|[]] Hk. injection E as _ _ <-. exact Hk.
Qed.

Lemma keys_within_snapshot w t :
  keys_within seed w -> incl (Dict.keys (snapshot w t)) (Dict.keys seed).
Proof.
  intros K k Hk. apply merge_keys in Hk. destruct Hk as (d & Hd & Hin).
  apply QRangeStoreFacts.comprehension_In in Hd. destruct Hd as (l & h & Hd).
  eapply K; eauto.
Qed.

Lemma keys_within_tick a w : keys_within seed w -> keys_within seed (snd (tick seed a w)).
Proof.
  intros K. destruct (tick_outcome seed a w) as [->|(t & ns & Ht & G & P & L & ->)]; [exact K|].
  intros l h v k Hin Hk. simpl in Hin. apply in_app_or in Hin.
  destruct Hin as [Hin|[E|[]]]; [eapply K; eauto|].
  injection E as _ _ <-. simpl in Hk. destruct Hk as [<-|[]].
  apply propagate_ok in P. destruct P as (s & Hs & _).
  apply DictFacts.set_eqb_incl in G. apply (proj1 G).
  apply DictFacts.get_In in Hs. change a with (fst (a, s)). now apply in_map.
Qed.

(** On a world whose stored keys are seed keys, the test of the loop,
    equality of the key sets, is the inclusion of the seed's keys. *)
Lemma gate_is_superset w t :
  keys_within seed w ->
  Dict.set_eqb (Dict.keys (snapshot w t)) (Dict.keys seed)
  = superset (Dict.keys (snapshot w t)) (Dict.keys seed).
Proof. intros K. apply DictFacts.set_eqb_superset, keys_within_snapshot, K. Qed.

(** *** Mass *)

Lemma mass_kept_start : mass_kept seed (start seed).
Proof.
  intros l h v a s [E|[]] Hin. injection E as _ _ <-. exists s. auto.
Qed.

Lemma mass_kept_tick a w : mass_kept seed w -> mass_kept seed (snd (tick seed a w)).
Proof.
  intros K. destruct (tick_outcome seed a w) as [->|(t & ns & Ht & G & P & L & ->)]; [exact K|].
  intros l h v b s Hin Hb. simpl in Hin. apply in_app_or in Hin.
  destruct Hin as [Hin|[E|[]]]; [eapply K; eauto|].
  injection E as _ _ <-. destruct Hb as [E|[]]. injection E as <- <-.
  apply propagate_ok in P. destruct P as (s & Hs & _ & _ & Hm & _).
  apply DictFacts.get_In, snapshot_In in Hs. destruct Hs as (l' & h' & v' & Hv & Hs).
  destruct (K _ _ _ _ _ Hv Hs) as (s0 & H0 & E0). exists s0. split; [exact H0|congruence].
Qed.

(** *** Valid ranges *)



(** *** Committed times *)

Lemma history_app a s1 s2 : history a (s1 ++ s2) = history a s1 ++ history a s2.
Proof. unfold history. apply flat_map_app. Qed.

Lemma increasing_snoc l t t' :
  increasing (l ++ [t]) -> (t <? t') = true -> increasing ((l ++ [t]) ++ [t']).
Proof.
  induction l as [|t0 l IH]; simpl; intros H L.
  - auto.
  - destruct H as [H1 H2]. split; [|auto].
    destruct l as [|t1 l]; simpl in *; auto.
Qed.

Lemma get_map_time (d : Dict.t AgentState) a t :
  Dict.get (map (fun kv => (fst kv, time (snd kv))) d) a = Some t ->
  exists s, Dict.get d a = Some s /\ time s = t.
Proof.
  induction d as [|[k s] d IH]; simpl; [discriminate|].
  destruct (String.eqb k a); [|exact IH].
  intros E. injection E as <-. eauto.
Qed.

Lemma times_increase_start : times_increase (start seed).
Proof.
  intros a. unfold start. rewrite setup_eq. simpl. rewrite app_nil_r. split.
  - destruct (Dict.get seed a); simpl; auto.
  - intros t Ht. apply get_map_time in Ht. destruct Ht as (s & -> & E).
    exists [], s. auto.
Qed.

Lemma times_increase_tick a w : times_increase w -> times_increase (snd (tick seed a w)).
Proof.
  intros K. destruct (tick_outcome seed a w) as [->|(t & ns & Ht & G & P & L & ->)]; [exact K|].
  intros b. cbn [snd store times]. rewrite history_app.
  destruct (K b) as [Hinc Hlast]. unfold history at 2. simpl. rewrite app_nil_r.
  destruct (String.eqb_spec a b) as [<-|Ne].
  - destruct (Hlast _ Ht) as (pre & s & E & Et). split.
    + rewrite E in *. rewrite !map_app in *. simpl map in *.
      apply increasing_snoc; congruence.
    + intros t'. rewrite DictFacts.get_set_same. intros E'. injection E' as <-.
      exists (history a (store w)), ns. auto.
  - rewrite app_nil_r. split; [exact Hinc|].
    intros t'. rewrite DictFacts.get_set_other by exact Ne. apply Hlast.
Qed.

End Invariants.

(** ** The scheduler's gate, the mass and the number of records *)

(** C5 as stated does not hold: an open gate does not always advance the
    agent.  With the seed [still] the snapshot of the first tick has every
    key of the seed, yet the insertion is rejected; with the seed
    [coincident] [propagate] raises; both ticks leave the store and the
    cursors as they were. *)
Lemma open_gate_without_advance :
  (superset (Dict.keys (snapshot (start still) (0 - 0.001)%float)) (Dict.keys still) = true
   /\ tick (L := correctly_rounded) still "A" (start still)
      = (Raise (IndexError "Invalid Range."), start still))
  /\ (superset (Dict.keys (snapshot (start coincident) (0 - 0.001)%float))
               (Dict.keys coincident) = true
      /\ tick (L := correctly_rounded) coincident "A" (start coincident)
         = (Raise ZeroDivisionError, start coincident)).
Proof. repeat split; reflexivity. Qed.

(** C5, amended.  In every tick of the loop, on every platform, for agent
    [a] with cursor [t]: the store is queried at [t - 0.001] and the answer
    merged into a snapshot; the agent is advanced exactly when the snapshot
    has every key of the seed, [propagate] returns a state and [t] is below
    that state's time, and then the tick appends the one record
    [(t, newState.time) -> {a: newState}] and sets the cursor of [a] to
    [newState.time]; when the snapshot has every key but [propagate] raises
    or the insertion is rejected, the exception ends the tick with the store
    and the cursors as they were; when a key is missing the store and the
    cursors stay as they are. *)
Theorem tick_advances_iff_snapshot_complete :
  forall (platform : Libm) (seed : Dict.t AgentState) (n : nat),
    all_ticks seed
      (fun _ a w =>
         forall t, Dict.get (times w) a = Some t ->
           let universe := merge (QRangeStore.comprehension (store w) (t - 0.001)%float) in
           tick seed a w =
           if superset (Dict.keys universe) (Dict.keys seed) then
             match propagate a universe with
             | Ok newState =>
                 if (t <? time newState)%float then
                   (Ok tt, mkWorld (store w ++ [(t, time newState, [(a, newState)])])
                                   (Dict.set (times w) a (time newState)))
                 else (Raise (IndexError "Invalid Range."), w)
             | Raise e => (Raise e, w)
             end
           else (Ok tt, w))
      (schedule seed n) (start seed).
Proof.
  intros platform seed n.
  apply all_ticks_inv with (I := keys_within seed).
  - intros a w. apply keys_within_tick.
  - intros _ a w K t Ht. cbv zeta.
    rewrite tick_eq, Ht. cbv zeta.
    fold (snapshot w (t - 0.001)%float).
    rewrite (gate_is_superset (t - 0.001)%float K). reflexivity.
  - apply keys_within_start.
Qed.

Lemma tick_advances_iff_snapshot_complete_witness :
  Dict.get (times (start init)) "Planet" = Some 0%float
  /\ tick (L := correctly_rounded) init "Planet" (start init)
     = (Ok tt, mkWorld (store (start init) ++ [(0, 0.02, [("Planet", planet_first)])]%float)
                       (Dict.set (times (start init)) "Planet" 0.02%float)).
Proof.
  split; [reflexivity|].
  etransitivity;
    [exact (proj1 (tick_advances_iff_snapshot_complete correctly_rounded init 1)
                  0%float eq_refl)|].
  vm_compute. reflexivity.
Defined.

(** C7.  After any number of passes from a well-formed seed, every state
    recorded in the store for an agent has the mass of that agent's seed
    state, so the mass of an agent is the same in every record. *)
Theorem mass_is_conserved :
  forall (platform : Libm) (seed : Dict.t AgentState) (n : nat),
    wf_dict seed ->
    forall low high v a s,
      In (low, high, v) (store (snd (program seed n empty_world))) ->
      Dict.get v a = Some s ->
      exists s0, Dict.get seed a = Some s0 /\ m s = m s0.
Proof.
  intros platform seed n W low high v a s Hin Hs.
  assert (K : mass_kept seed (snd (program seed n empty_world))).
  { apply program_inv; [apply mass_kept_start|apply mass_kept_tick]. }
  destruct (K _ _ _ _ _ Hin (DictFacts.get_In _ _ Hs)) as (s0 & H0 & E).
  exists s0. split; [|exact E]. now apply DictFacts.In_get.
Qed.

Lemma mass_is_conserved_witness :
  exists s0, Dict.get init "Planet" = Some s0 /\ m planet_first = m s0.
Proof.
  apply (@mass_is_conserved correctly_rounded init 1)
    with (low := 0%float) (high := 0.02%float) (v := [("Planet", planet_first)]).
  - repeat constructor; simpl; intuition discriminate.
  - vm_compute. right. left. reflexivity.
  - reflexivity.
Defined.


(** ** The windowed replay describes the loop *)

Section Window.
Context {platform : Libm}.
Variable seed : Dict.t AgentState.
Variable obs : nat -> float -> AgentState -> AgentState -> bool.
Local Open Scope float_scope.

Lemma dead_not_covers V (B q : float) (r : float * float * V) :
  (B <=? q) = true -> alive B r = false -> covers q r = false.
Proof.
  destruct r as [[l h] v]. unfold alive, covers. simpl.
  intros HB Hd. apply negb_false_iff in Hd.
  rewrite (FloatOrder.leb_not_ltb (FloatOrder.leb_trans Hd HB)).
  apply andb_false_r.
Qed.

(** Records that ended at or before [B] do not answer a query at or
    after [B]. *)
Lemma comprehension_window V (B q : float) (s : QRangeStore.t V) :
  (B <=? q) = true ->
  QRangeStore.comprehension (filter (alive B) s) q = QRangeStore.comprehension s q.
Proof.
  intros HB. rewrite !QRangeStoreFacts.comprehension_filter. f_equal.
  induction s as [|r s IH]; simpl; [reflexivity|].
  destruct (alive B r) eqn:A; simpl.
  - now rewrite IH.
  - now rewrite (dead_not_covers _ HB A).
Qed.

Lemma filter_alive_mono V (B B' : float) (s : QRangeStore.t V) :
  (B <=? B') = true -> filter (alive B') (filter (alive B) s) = filter (alive B') s.
Proof.
  intros HB. induction s as [|r s IH]; simpl; [reflexivity|].
  destruct (alive B r) eqn:A; simpl.
  - now rewrite IH.
  - rewrite IH. unfold alive in *. apply negb_false_iff in A.
    now rewrite (FloatOrder.leb_trans A HB).
Qed.

Lemma windowed_tick_sound p a B w st' :
  windowed_tick seed obs p a (B, mkWorld (filter (alive B) (store w)) (times w)) = Some st' ->
  commits seed obs p a w
  /\ exists B', st' = (B', mkWorld (filter (alive B') (store (snd (tick seed a w))))
                                   (times (snd (tick seed a w)))).
Proof.
  unfold windowed_tick. cbn [store times].
  destruct (Dict.get (times w) a) as [t|] eqn:Ht; [|discriminate].
  cbv zeta. destruct (B <=? t - 0.001) eqn:HB; simpl negb; cbv iota; [|discriminate].
  rewrite (filter_alive_mono _ HB).
  rewrite (comprehension_window _ (FloatOrder.leb_refl_r HB)).
  fold (snapshot w (t - 0.001)).
  destruct (Dict.set_eqb _ _) eqn:G; simpl negb; cbv iota; [|discriminate].
  destruct (Dict.get (snapshot w (t - 0.001)) a) as [s|] eqn:Hs; [|discriminate].
  destruct (propagate a (snapshot w (t - 0.001))) as [ns|e] eqn:P; [|discriminate].
  destruct (t <? time ns) eqn:L; [|discriminate].
  destruct (obs p t s ns) eqn:O; [|discriminate].
  intros E. injection E as <-.
  assert (T : tick seed a w
              = (Ok tt, mkWorld (store w ++ [(t, time ns, [(a, ns)])])
                                (Dict.set (times w) a (time ns)))).
  { rewrite tick_eq, Ht. cbv zeta. now rewrite G, P, L. }
  split.
  - exists t, s, ns. auto 10.
  - exists (t - 0.001). rewrite T. cbn [snd store times]. now rewrite filter_app.
Qed.

Lemma windowed_ticks_sound sched B w :
  windowed_ticks seed obs sched (B, mkWorld (filter (alive B) (store w)) (times w)) = true ->
  all_ticks seed (commits seed obs) sched w.
Proof.
  revert B w. induction sched as [|[p a] sched IH]; cbn [windowed_ticks all_ticks];
    intros B w H; [exact I|].
  destruct (windowed_tick _ _ _ _ _) as [st'|] eqn:E; [|discriminate].
  apply windowed_tick_sound in E. destruct E as [C (B' & ->)].
  split; [exact C|]. eapply IH, H.
Qed.

Lemma commits_ok p a w : commits seed obs p a w -> fst (tick seed a w) = Ok tt.
Proof. intros (t & s & ns & _ & _ & _ & _ & _ & _ & ->). reflexivity. Qed.

Lemma commits_gate_open p a w : commits seed obs p a w -> gate_open seed a w = true.
Proof.
  intros (t & s & ns & Ht & G & _). unfold gate_open. now rewrite Ht.
Qed.

Lemma commits_never_blocked sched w :
  all_ticks seed (commits seed obs) sched w -> blocked_ticks seed sched w = 0%nat.
Proof.
  revert w. induction sched as [|[p a] sched IH]; cbn [all_ticks blocked_ticks];
    intros w; [reflexivity|].
  intros [C H]. now rewrite (commits_gate_open C), (IH _ H).
Qed.

End Window.

(** ** Two platforms that square alike *)

Section Transfer.
Variables P1 P2 : Libm.
Variable seed : Dict.t AgentState.
Variable obs : nat -> float -> AgentState -> AgentState -> bool.
Local Open Scope float_scope.

Lemma propagate_same_square a u s :
  Dict.get u a = Some s ->
  PyFloat.pow2 (L := P1) (time_step s) = PyFloat.pow2 (L := P2) (time_step s) ->
  propagate (L := P1) a u = propagate (L := P2) a u.
Proof. intros Hs H. unfold propagate. rewrite Hs. cbv zeta. now rewrite H. Qed.

Hypothesis same_squares :
  forall p t s ns,
    obs p t s ns = true ->
    PyFloat.pow2 (L := P1) (time_step s) = PyFloat.pow2 (L := P2) (time_step s).

Lemma commits_transfer p a w :
  commits (L := P1) seed obs p a w ->
  commits (L := P2) seed obs p a w
  /\ tick (L := P2) seed a w = tick (L := P1) seed a w.
Proof.
  intros (t & s & ns & Ht & G & Hs & P & Lt & O & T).
  assert (P' : propagate (L := P2) a (snapshot w (t - 0.001)) = Ok ns).
  { rewrite <- P. symmetry. apply (propagate_same_square _ _ Hs), (same_squares O). }
  assert (T' : tick (L := P2) seed a w
               = (Ok tt, mkWorld (store w ++ [(t, time ns, [(a, ns)])])
                                 (Dict.set (times w) a (time ns)))).
  { rewrite tick_eq, Ht. cbv zeta. now rewrite G, P', Lt. }
  split; [|now rewrite T, T'].
  exists t, s, ns. auto 10.
Qed.

Lemma all_ticks_transfer sched w :
  all_ticks (L := P1) seed (commits (L := P1) seed obs) sched w ->
  all_ticks (L := P2) seed (commits (L := P2) seed obs) sched w
  /\ after (L := P2) seed sched w = after (L := P1) seed sched w.
Proof.
  revert w. induction sched as [|[p a] sched IH]; cbn [all_ticks]; intros w.
  - intros _. split; [exact I|reflexivity].
  - intros [C H]. destruct (commits_transfer C) as [C' E].
    change (after (L := P2) seed ((p, a) :: sched) w)
      with (after (L := P2) seed sched (snd (tick (L := P2) seed a w))).
    change (after (L := P1) seed ((p, a) :: sched) w)
      with (after (L := P1) seed sched (snd (tick (L := P1) seed a w))).
    rewrite E. destruct (IH _ H) as [H1 H2]. auto.
Qed.

End Transfer.

(** ** The run of the source file *)

(** The replay of the 10000 passes over [init] succeeds on the platform
    [correctly_rounded], with the check of [unit_step_after_first] passing
    at every tick. *)
Lemma main_replay :
  windowed_ticks (L := correctly_rounded) init unit_step_after_first
                 (schedule init passes) ((-999999999)%float, start init) = true.
Proof. vm_compute. reflexivity. Qed.

Lemma reference_squares_seed_step : squares_seed_step correctly_rounded.
Proof. reflexivity. Qed.

Lemma pow2_of_one (platform : Libm) : PyFloat.pow2 1%float = Ok 1%float.
Proof. reflexivity. Qed.

(** The run takes no square but those of 0.02 and 1.0. *)
Lemma main_squares (platform : Libm) :
  squares_seed_step platform ->
  forall p t s ns,
    unit_step_after_first p t s ns = true ->
    PyFloat.pow2 (L := correctly_rounded) (time_step s)
    = PyFloat.pow2 (L := platform) (time_step s).
Proof.
  intros H p t s ns O. unfold unit_step_after_first in O.
  apply andb_true_iff in O. destruct O as [_ O].
  apply FloatAxioms.Leibniz.eqb_spec in O. rewrite O.
  destruct (Nat.eqb p 0).
  - rewrite H. reflexivity.
  - rewrite !pow2_of_one. reflexivity.
Qed.

Section Main.
Context {platform : Libm}.
Hypothesis seed_step : squares_seed_step platform.

Lemma main_ticks :
  all_ticks init (commits init unit_step_after_first) (schedule init passes) (start init).
Proof.
  apply (@all_ticks_transfer correctly_rounded platform init unit_step_after_first
           (@main_squares platform seed_step)).
  apply windowed_ticks_sound with (B := (-999999999)%float). exact main_replay.
Qed.

Lemma main_after_reference :
  after init (schedule init passes) (start init)
  = after (L := correctly_rounded) init (schedule init passes) (start init).
Proof.
  apply (@all_ticks_transfer correctly_rounded platform init unit_step_after_first
           (@main_squares platform seed_step)).
  apply windowed_ticks_sound with (B := (-999999999)%float). exact main_replay.
Qed.

Lemma main_ok : fst (program init passes empty_world) = Ok tt.
Proof.
  apply program_ok_iff.
  eapply all_ticks_impl; [|exact main_ticks].
  intros p a w. apply commits_ok.
Qed.

(** The source's run leaves the seed record and one record per tick. *)
Lemma main_records :
  List.length (store (snd (program init passes empty_world))) = (1 + passes * 3)%nat.
Proof.
  pose proof (program_count init passes main_ok) as H.
  rewrite (@commits_never_blocked platform init _ _ _ main_ticks), Nat.add_0_r in H.
  exact H.
Qed.

End Main.

(** On every platform that squares 0.02 to 0.0004 the run of the source
    file is [main]. *)
Lemma main_on_every_platform (platform : Libm) :
  squares_seed_step platform -> program init passes empty_world = main.
Proof.
  intros H. unfold main.
  rewrite (surjective_pairing (program init passes empty_world)).
  rewrite (surjective_pairing (program (L := correctly_rounded) init passes empty_world)).
  rewrite (main_ok H), (main_ok reference_squares_seed_step).
  rewrite (program_after _ _ (main_ok H)).
  rewrite (program_after _ _ (main_ok reference_squares_seed_step)).
  now rewrite (main_after_reference H).
Qed.








(** C9.  [n] passes over the [k] agents of the seed leave at most [n * k]
    records beyond the seed record, and when the run ends normally the
    records missing from [n * k] are exactly the ticks the gate blocked; the
    run of the source file, where no tick is blocked, leaves all of them. *)
Theorem records_bounded_by_passes_times_agents :
  forall (platform : Libm) (seed : Dict.t AgentState) (n : nat),
    (List.length (store (snd (program seed n empty_world)))
     <= 1 + n * List.length (Dict.keys seed))%nat
    /\ (fst (program seed n empty_world) = Ok tt ->
        (List.length (store (snd (program seed n empty_world)))
         + blocked_ticks seed (schedule seed n) (start seed)
         = 1 + n * List.length (Dict.keys seed))%nat)
    /\ List.length (store (snd main)) = (1 + passes * 3)%nat.
Proof.
  intros platform seed n. split; [apply program_bound|split; [apply program_count|]].
  unfold main. exact (main_records reference_squares_seed_step).
Qed.

Lemma records_bounded_by_passes_times_agents_witness :
  fst (program (L := correctly_rounded) init 2 empty_world) = Ok tt
  /\ (List.length (store (snd (program (L := correctly_rounded) init 2 empty_world)))
      + blocked_ticks (L := correctly_rounded) init (schedule init 2) (start init)
      = 1 + 2 * 3)%nat.
Proof.
  split; [reflexivity|].
  exact (proj1 (proj2 (records_bounded_by_passes_times_agents correctly_rounded init 2))
               eq_refl).
Defined.

(** ** The integration step *)

Section Zero.
Local Open Scope float_scope.

Lemma finite_cases v :
  is_finite v = true ->
  match Prim2SF v with
  | S754_zero _ | S754_finite _ _ _ => True
  | _ => False
  end.
Proof.
  unfold is_finite, is_nan, is_infinity. rewrite !eqb_spec, abs_spec.
  change (Prim2SF infinity) with (S754_infinity false).
  destruct (Prim2SF v) as [s|[|]| |s mv ev]; simpl; auto; discriminate.
Qed.

Lemma sub_self_zero v : is_finite v = true -> exists s, Prim2SF (v - v) = S754_zero s.
Proof.
  intros F. apply finite_cases in F. rewrite sub_spec.
  destruct (Prim2SF v) as [[|]|s| |s mv ev]; try contradiction.
  - exists false. reflexivity.
  - exists false. reflexivity.
  - exists false. unfold SF64sub, SFsub. now rewrite Z.sub_diag.
Qed.

Lemma square_of_zero d s : Prim2SF d = S754_zero s -> Prim2SF (d * d) = S754_zero false.
Proof. intros E. rewrite mul_spec, E. now destruct s. Qed.

(** A body at the very place of [self], both coordinates finite, is at
    distance zero. *)
Lemma same_place_distance_zero (self b : AgentState) :
  x b = x self -> y b = y self ->
  is_finite (x self) = true -> is_finite (y self) = true ->
  (distance self b =? 0) = true.
Proof.
  intros Ex Ey Fx Fy. unfold distance. rewrite Ex, Ey. cbv zeta.
  destruct (sub_self_zero _ Fx) as (sx & Hx).
  destruct (sub_self_zero _ Fy) as (sy & Hy).
  rewrite eqb_spec, sqrt_spec, add_spec.
  now rewrite (square_of_zero _ Hx), (square_of_zero _ Hy).
Qed.

End Zero.

Section Step.
Local Open Scope float_scope.
Variable a : string.
Variable self : AgentState.

Lemma sqrt_of_squares dx dy :
  PyFloat.sqrt (dx * dx + dy * dy) = Ok (PrimFloat.sqrt (dx * dx + dy * dy)).
Proof. unfold PyFloat.sqrt. now rewrite FloatOrder.sum_of_squares_not_neg. Qed.

(** One round of the loop over a body other than the agent. *)
Lemma force_loop_other ID body rest fx fy :
  String.eqb ID a = false ->
  force_loop a (m self) (x self) (y self) ((ID, body) :: rest) fx fy
  = if distance self body =? 0 then Raise ZeroDivisionError
    else force_loop a (m self) (x self) (y self) rest
           (fx + force_magnitude self body * (x body - x self) / distance self body)
           (fy + force_magnitude self body * (y body - y self) / distance self body).
Proof.
  intros N. cbn [force_loop]. rewrite N. cbv zeta. rewrite sqrt_of_squares.
  unfold rbind, PyFloat.div, force_magnitude, distance. cbv zeta.
  destruct (PrimFloat.sqrt _ =? 0); reflexivity.
Qed.

Lemma force_loop_zero_distance b_id b items fx fy :
  In (b_id, b) items -> b_id <> a -> (distance self b =? 0) = true ->
  force_loop a (m self) (x self) (y self) items fx fy = Raise ZeroDivisionError.
Proof.
  intros Hin Ne Z. revert fx fy.
  induction items as [|[ID body] rest IH]; intros fx fy; [destruct Hin|].
  destruct (String.eqb_spec ID a) as [->|N].
  - cbn [force_loop]. rewrite String.eqb_refl. apply IH.
    destruct Hin as [E|Hin]; [congruence|exact Hin].
  - rewrite force_loop_other by now apply String.eqb_neq.
    destruct (distance self body =? 0) eqn:D; [reflexivity|].
    apply IH. destruct Hin as [E|Hin]; [|exact Hin].
    injection E as -> ->. congruence.
Qed.

Lemma force_loop_reference items fx fy :
  (forall b, In b (others a items) -> (distance self b =? 0) = false) ->
  force_loop a (m self) (x self) (y self) items fx fy
  = Ok (fold_left (fun acc b => acc + force_magnitude self b * (x b - x self) / distance self b)
                  (others a items) fx,
        fold_left (fun acc b => acc + force_magnitude self b * (y b - y self) / distance self b)
                  (others a items) fy).
Proof.
  revert fx fy. induction items as [|[ID body] rest IH]; intros fx fy H; [reflexivity|].
  unfold others in *. cbn [filter fst] in *.
  destruct (String.eqb ID a) eqn:N; cbn [negb map snd fold_left] in *.
  - cbn [force_loop]. rewrite N. apply IH, H.
  - rewrite force_loop_other by exact N.
    rewrite (H body) by now left.
    apply IH. intros b Hb. apply H. now right.
Qed.

End Step.

(** C4 as stated does not hold: on three snapshots that hold the agent's
    state and two bodies at different places [propagate] raises instead of
    returning a state, for a massless agent, for a distance whose square
    underflows to zero and for a step whose square overflows. *)
Lemma propagate_raises_at_distinct_positions :
  (Dict.get massless "A" <> None
   /\ distinct_positions (map snd massless) = true
   /\ propagate (L := correctly_rounded) "A" massless = Raise ZeroDivisionError)
  /\ (Dict.get too_close "A" <> None
      /\ distinct_positions (map snd too_close) = true
      /\ propagate (L := correctly_rounded) "A" too_close = Raise ZeroDivisionError)
  /\ (Dict.get long_step "A" <> None
      /\ distinct_positions (map snd long_step) = true
      /\ propagate (L := correctly_rounded) "A" long_step = Raise OverflowError).
Proof.
  repeat split; try discriminate; reflexivity.
Qed.

(** C4, amended.  On every platform, for a snapshot that holds the state of
    agent [a], in which every other body is at a non-zero computed distance
    from [a], the mass of [a] is not zero and [time_step ** 2] evaluates to
    a float [sq] (it raises OverflowError otherwise), [propagate] returns
    the state of the reference computation: the forces
    [G * m_self * m_b / distance * distance] of the other bodies, summed in
    the snapshot's order from zero with components [dx / distance] and
    [dy / distance], divided by [m_self], then
    [x' = x + (vx*dt + 0.5*accel_x*sq)], likewise [y'],
    [vx' = vx + accel_x*dt], likewise [vy'], [time' = time + dt] with [dt]
    the [time_step] of the input state, [time_step' = 1.0], name and mass
    as they were. *)
Theorem propagate_matches_reference :
  forall (platform : Libm) (a : string) (universe : Dict.t AgentState)
         (self : AgentState) (sq : float),
    Dict.get universe a = Some self ->
    (forall b, In b (others a universe) -> (distance self b =? 0)%float = false) ->
    (m self =? 0)%float = false ->
    PyFloat.pow2 (time_step self) = Ok sq ->
    propagate a universe = Ok (propagated a self sq universe).
Proof.
  intros platform a universe self sq Hs Hd Hm Hp. unfold propagate. rewrite Hs. cbv zeta.
  rewrite (@force_loop_reference a self universe _ _ Hd).
  unfold rbind, PyFloat.div. cbn [fst snd]. rewrite Hm. cbv zeta.
  rewrite Hp. reflexivity.
Qed.

Lemma propagate_matches_reference_witness :
  propagate (L := correctly_rounded) "Planet" init
  = Ok (propagated "Planet" (mkAgent "Earth" 0 0.02 0 0 (-0.01) 0 1000) 0.0004 init).
Proof.
  apply (@propagate_matches_reference correctly_rounded); try reflexivity.
  intros b [<-|[<-|[]]]; reflexivity.
Defined.

(** C8 as stated does not hold: a state with NaN coordinates is committed
    when a coordinate difference squares to infinity.  With the seed [far]
    the distance is infinite, the force [G*m*m/inf*inf] is NaN, nothing
    raises, and the first pass ends normally with NaN positions and
    velocities in the store. *)
Lemma nan_state_is_committed :
  fst (program (L := correctly_rounded) far 1 empty_world) = Ok tt
  /\ exists ns,
       In (0, 1, [("A", ns)])%float
          (store (snd (program (L := correctly_rounded) far 1 empty_world)))
       /\ is_nan (x ns) = true /\ is_nan (vx ns) = true.
Proof.
  split; [reflexivity|]. eexists. split.
  - vm_compute. right. left. reflexivity.
  - split; reflexivity.
Qed.

(** C8, amended.  On every platform, when some other body of the snapshot is
    at the very place of the agent (with finite coordinates), or more
    generally at computed distance zero from it, [propagate] raises
    ZeroDivisionError and returns no state; a tick that reads this snapshot
    leaves the store and the cursors as they were, and raises the error
    whenever its gate is open. *)
Theorem coincident_bodies_raise :
  forall (platform : Libm) (a : string) (universe : Dict.t AgentState)
         (self : AgentState) (b_id : string) (b : AgentState),
    Dict.get universe a = Some self ->
    In (b_id, b) universe ->
    b_id <> a ->
    (x b = x self /\ y b = y self
     /\ is_finite (x self) = true /\ is_finite (y self) = true)
    \/ (distance self b =? 0)%float = true ->
    propagate a universe = Raise ZeroDivisionError
    /\ forall (seed : Dict.t AgentState) (w : world) (t : float),
         Dict.get (times w) a = Some t ->
         snapshot w (t - 0.001)%float = universe ->
         snd (tick seed a w) = w
         /\ (gate_open seed a w = true -> fst (tick seed a w) = Raise ZeroDivisionError).
Proof.
  intros platform a universe self b_id b Hs Hin Ne Z.
  assert (Z' : (distance self b =? 0)%float = true).
  { destruct Z as [(Ex & Ey & Fx & Fy)|Z]; [|exact Z].
    now apply same_place_distance_zero. }
  assert (P : propagate a universe = Raise ZeroDivisionError).
  { unfold propagate. rewrite Hs. cbv zeta.
    now rewrite (@force_loop_zero_distance a self b_id b universe _ _ Hin Ne Z'). }
  split; [exact P|].
  intros seed w t Ht Hu. unfold gate_open. rewrite tick_eq, Ht. cbv zeta.
  rewrite Hu, P. destruct (Dict.set_eqb _ _); simpl; auto. split; [reflexivity|discriminate].
Qed.

Lemma coincident_bodies_raise_witness :
  propagate (L := correctly_rounded) "A" coincident = Raise ZeroDivisionError.
Proof.
  refine (proj1 (@coincident_bodies_raise correctly_rounded "A" coincident
                   (mkAgent "a" 0 0.02 1 2 0 0 5) "B" (mkAgent "b" 0 0.02 1 2 0 0 7)
                   eq_refl _ _ _)).
  - right. left. reflexivity.
  - discriminate.
  - left. repeat split; reflexivity.
Defined.

(** * Further properties of the code *)

(** ** More on the order of binary64 numbers *)

Module FloatEdges.
Local Open Scope float_scope.
Import FloatOrder.

Lemma SFltb_leb a b : SFltb a b = true -> SFleb a b = true.
Proof. unfold SFleb, SFltb. destruct (SFcompare a b) as [[| |]|]; auto. Qed.

Lemma SFleb_refl_l a b : SFleb a b = true -> SFleb a a = true.
Proof.
  unfold SFleb.
  destruct a as [[|]|[|]| |[|] ma ea], b as [[|]|[|]| |[|] mb eb]; simpl; intros H1;
    try discriminate; try reflexivity; cmp_cases.
Qed.

Lemma SFltb_trans a b c : SFltb a b = true -> SFltb b c = true -> SFltb a c = true.
Proof.
  unfold SFltb.
  destruct a as [[|]|[|]| |[|] ma ea], b as [[|]|[|]| |[|] mb eb],
           c as [[|]|[|]| |[|] mc ec]; simpl; intros H1 H2;
    try discriminate; try reflexivity; cmp_cases.
Qed.

Lemma ltb_leb a b : (a <? b) = true -> (a <=? b) = true.
Proof. rewrite leb_spec, ltb_spec. apply SFltb_leb. Qed.

Lemma leb_refl_l a b : (a <=? b) = true -> (a <=? a) = true.
Proof. rewrite !leb_spec. apply SFleb_refl_l. Qed.

Lemma ltb_trans a b c : (a <? b) = true -> (b <? c) = true -> (a <? c) = true.
Proof. rewrite !ltb_spec. apply SFltb_trans. Qed.

Lemma ltb_irrefl_r a b : (a <? b) = true -> (b <? b) = false.
Proof.
  intros H. apply leb_not_ltb. apply (leb_refl_r (ltb_leb H)).
Qed.

Lemma ltb_not_nan a b : (a <? b) = true -> is_nan a = false /\ is_nan b = false.
Proof.
  rewrite ltb_total. intros H.
  apply andb_true_iff in H. destruct H as [H Hb].
  apply andb_true_iff in H. destruct H as [_ Ha].
  split; now apply negb_true_iff.
Qed.

Lemma nan_form p : is_nan p = true -> Prim2SF p = S754_nan.
Proof.
  unfold is_nan. rewrite eqb_spec. unfold SFeqb.
  destruct (Prim2SF p) as [[|]|[|]| |[|] mp ep]; simpl; try discriminate; try reflexivity;
    cmp_cases.
Qed.

(** Nothing is below or equal to a NaN. *)
Lemma leb_nan l p : is_nan p = true -> (l <=? p) = false.
Proof.
  intros H. rewrite leb_spec, (nan_form _ H). unfold SFleb.
  now destruct (Prim2SF l).
Qed.

End FloatEdges.

(** ** The interval store, beyond queries *)

Section StoreUse.
Local Open Scope float_scope.
Context {V : Type}.
Implicit Types (s : QRangeStore.t V) (v : V).

(** X1.  After a successful insertion of [(low, high, v)] a query at [p]
    gives what it gave before, followed by [v] when [low <= p < high]; a
    query that failed before now answers [[v]] when the new range holds [p]
    and fails as before when it does not. *)
Theorem insert_then_query s low high v p :
  (low <? high) = true ->
  bind (QRangeStore.__setitem__ (low, high) v) (fun _ => QRangeStore.__getitem__ p) s
  = (match fst (QRangeStore.__getitem__ p s) with
     | Ok r => Ok (if covers p (low, high, v) then r ++ [v] else r)
     | Raise e => if covers p (low, high, v) then Ok [v] else Raise e
     end, s ++ [(low, high, v)]).
Proof.
  intros L. unfold bind. rewrite QRangeStoreFacts.setitem_eq, L.
  rewrite !QRangeStoreFacts.getitem_eq. cbn [fst].
  rewrite existsb_app, filter_app, map_app. cbn [existsb filter].
  rewrite orb_false_r.
  destruct (existsb (covers p) s) eqn:E; destruct (covers p (low, high, v)) eqn:C;
    cbn [orb map snd]; rewrite ?app_nil_r; try reflexivity.
  rewrite QRangeStoreFacts.filter_nil_existsb in E.
  destruct (filter (covers p) s); [reflexivity|discriminate].
Qed.

Lemma valid_prefix_valid (ops : list (float * float * V)) l h v :
  In (l, h, v) (valid_prefix ops) -> (l <? h) = true.
Proof.
  induction ops as [|[[l0 h0] v0] ops IH]; simpl; [tauto|].
  destruct (l0 <? h0) eqn:L; [|intros []].
  intros [E|H]; [|auto]. injection E as <- <- _. exact L.
Qed.

(** X2.  A batch of insertions stores, after what was there and in order,
    exactly the operations before the first one whose range is not valid,
    and raises IndexError("Invalid Range.") when there is such an operation;
    so every record of a store built by insertions has [low < high] and no
    NaN as a bound. *)
Theorem batch_of_insertions (ops : list (float * float * V)) s :
  insert_all ops s
  = (if forallb (fun r => fst (fst r) <? snd (fst r)) ops then Ok tt
     else Raise (IndexError "Invalid Range."), s ++ valid_prefix ops)
  /\ forall l h v, In (l, h, v) (valid_prefix ops) ->
       (l <? h) = true /\ is_nan l = false /\ is_nan h = false.
Proof.
  split.
  - revert s. unfold insert_all.
    induction ops as [|[[l h] v] ops IH]; intros s; cbn [for_each valid_prefix forallb fst snd].
    + unfold ret. now rewrite app_nil_r.
    + unfold bind. rewrite QRangeStoreFacts.setitem_eq.
      destruct (l <? h); cbn [andb].
      * rewrite IH, <- app_assoc. reflexivity.
      * now rewrite app_nil_r.
  - intros l h v H. apply valid_prefix_valid in H.
    split; [exact H|]. now apply FloatEdges.ltb_not_nan.
Qed.

(** X3.  Ranges are closed below and open above: a store that holds the
    valid record [(low, high, v)] answers the query at [low] with a list
    that has [v], and the store of that record alone does not answer the
    query at [high]. *)
Theorem range_is_half_open s low high v :
  In (low, high, v) s ->
  (low <? high) = true ->
  (exists r, fst (QRangeStore.__getitem__ low s) = Ok r /\ In v r)
  /\ fst (QRangeStore.__getitem__ high [(low, high, v)])
     = Raise (IndexError "Not found.").
Proof.
  intros Hin L.
  assert (C : covers low (low, high, v) = true).
  { unfold covers. now rewrite L, (FloatEdges.leb_refl_l (FloatEdges.ltb_leb L)). }
  split.
  - rewrite QRangeStoreFacts.getitem_eq. cbn [fst].
    assert (E : existsb (covers low) s = true).
    { apply existsb_exists. eauto. }
    rewrite E. eexists. split; [reflexivity|].
    apply in_map_iff. exists (low, high, v). split; [reflexivity|].
    apply filter_In. auto.
  - rewrite QRangeStoreFacts.getitem_eq. cbn [fst existsb covers].
    now rewrite (FloatEdges.ltb_irrefl_r L), andb_false_r.
Qed.

(** X4.  A query at a NaN is never answered, whatever the store holds. *)
Theorem nan_is_never_found s p :
  is_nan p = true ->
  QRangeStore.__getitem__ p s = (Raise (IndexError "Not found."), s).
Proof.
  intros N. rewrite QRangeStoreFacts.getitem_eq.
  assert (E : existsb (covers p) s = false).
  { induction s as [|[[l h] v] s IH]; [reflexivity|].
    cbn [existsb covers]. now rewrite (@FloatEdges.leb_nan l p N), IH. }
  now rewrite E.
Qed.

End StoreUse.

Lemma insert_then_query_witness :
  bind (QRangeStore.__setitem__ (2, 4)%float "D") (fun _ => QRangeStore.__getitem__ 2.5%float)
       [(0, 3, "A")]%float
  = (Ok ["A"; "D"], [(0, 3, "A"); (2, 4, "D")]%float).
Proof.
  etransitivity; [exact (@insert_then_query string [(0, 3, "A")]%float 2%float 4%float
                           "D" 2.5%float eq_refl)|].
  reflexivity.
Defined.

Lemma batch_of_insertions_witness :
  (0 <? 3)%float = true /\ is_nan 0%float = false /\ is_nan 3%float = false.
Proof.
  apply (proj2 (@batch_of_insertions string [(0, 3, "A"); (2, 0, "F"); (2, 4, "D")]%float []))
    with (v := "A").
  left. reflexivity.
Defined.

Lemma range_is_half_open_witness :
  (exists r, fst (QRangeStore.__getitem__ 2%float scenario) = Ok r /\ In "D" r)
  /\ fst (QRangeStore.__getitem__ 4%float [(2, 4, "D")]%float)
     = Raise (IndexError "Not found.").
Proof.
  apply range_is_half_open; [right; left; reflexivity|reflexivity].
Defined.

Lemma nan_is_never_found_witness :
  QRangeStore.__getitem__ nan scenario = (Raise (IndexError "Not found."), scenario).
Proof. apply nan_is_never_found. reflexivity. Defined.

(** ** Dictionary union and [read] *)

Section Union.
Context {V : Type}.
Implicit Types (d acc : Dict.t V) (k : string) (v : V).

Lemma set_set_same d k v v' : Dict.set (Dict.set d k v') k v = Dict.set d k v.
Proof.
  induction d as [|[k0 v0] d IH]; simpl.
  - now rewrite String.eqb_refl.
  - destruct (String.eqb k0 k) eqn:E; simpl; rewrite E; [reflexivity|now rewrite IH].
Qed.

Lemma set_set_comm d k v k1 v1 :
  k <> k1 -> In k (Dict.keys d) ->
  Dict.set (Dict.set d k v) k1 v1 = Dict.set (Dict.set d k1 v1) k v.
Proof.
  intros Ne. induction d as [|[k0 v0] d IH]; simpl; [tauto|].
  intros Hin.
  destruct (String.eqb_spec k0 k) as [->|N0]; simpl.
  - destruct (String.eqb_spec k k1) as [|_]; [contradiction|]. simpl.
    now rewrite String.eqb_refl.
  - destruct (String.eqb_spec k0 k1) as [->|N1]; simpl.
    + destruct (String.eqb_spec k1 k) as [|_]; [congruence|reflexivity].
    + destruct (String.eqb_spec k0 k) as [|_]; [contradiction|].
      rewrite IH; [reflexivity|]. destruct Hin; [contradiction|assumption].
Qed.

Lemma or_set_present d acc k v :
  In k (Dict.keys acc) -> ~ In k (Dict.keys d) ->
  Dict.set (Dict.or acc d) k v = Dict.or (Dict.set acc k v) d.
Proof.
  unfold Dict.or. revert acc. induction d as [|[k1 v1] d IH]; simpl; intros acc Hin Hout;
    [reflexivity|].
  rewrite IH.
  - f_equal. symmetry. apply set_set_comm; [|exact Hin]. intros ->. apply Hout. now left.
  - apply DictFacts.keys_set. now right.
  - tauto.
Qed.

Lemma or_set d acc k v :
  NoDup (Dict.keys d) -> Dict.or acc (Dict.set d k v) = Dict.set (Dict.or acc d) k v.
Proof.
  unfold Dict.or. revert acc. induction d as [|[k0 v0] d IH]; simpl; intros acc ND;
    [reflexivity|].
  inversion ND as [|? ? Hout ND']; subst.
  destruct (String.eqb_spec k0 k) as [->|N0]; simpl.
  - change (fold_left (fun a kv => Dict.set a (fst kv) (snd kv)) d ?x) with (Dict.or x d).
    rewrite or_set_present; [|apply DictFacts.keys_set; now left|exact Hout].
    now rewrite set_set_same.
  - now apply IH.
Qed.

(** Union is associative as soon as the middle dictionary is well formed. *)
Lemma or_assoc d1 d2 d3 :
  NoDup (Dict.keys d2) -> Dict.or (Dict.or d1 d2) d3 = Dict.or d1 (Dict.or d2 d3).
Proof.
  revert d2. induction d3 as [|[k v] d3 IH]; intros d2 ND; [reflexivity|].
  change (Dict.or (Dict.or d1 d2) ((k, v) :: d3))
    with (Dict.or (Dict.set (Dict.or d1 d2) k v) d3).
  change (Dict.or d2 ((k, v) :: d3)) with (Dict.or (Dict.set d2 k v) d3).
  rewrite <- IH by now apply DictFacts.NoDup_set.
  now rewrite or_set.
Qed.

Lemma or_nil_r d : Dict.or d [] = d.
Proof. reflexivity. Qed.

Lemma fold_or_shift (data : list (Dict.t V)) d acc :
  NoDup (Dict.keys acc) ->
  fold_left (@Dict.or V) data (Dict.or d acc) = Dict.or d (fold_left (@Dict.or V) data acc).
Proof.
  revert acc. induction data as [|d0 data IH]; simpl; intros acc ND; [reflexivity|].
  rewrite or_assoc by exact ND. apply IH. now apply DictFacts.NoDup_or.
Qed.

End Union.

(** X5.  Merging can be done in pieces: the merge of a concatenation is the
    union of the two merges, for all dictionaries; and union itself is
    associative when the middle dictionary has no key twice. *)
Theorem merge_in_pieces :
  (forall V (data1 data2 : list (Dict.t V)),
      merge (data1 ++ data2) = Dict.or (merge data1) (merge data2))
  /\ (forall V (d1 d2 d3 : Dict.t V),
         wf_dict d2 -> Dict.or (Dict.or d1 d2) d3 = Dict.or d1 (Dict.or d2 d3)).
Proof.
  split.
  - intros V data1 data2. unfold merge. rewrite fold_left_app.
    rewrite <- (or_nil_r (fold_left (@Dict.or V) data1 [])) at 1.
    apply fold_or_shift. constructor.
  - intros V d1 d2 d3 W. now apply or_assoc.
Qed.

Lemma merge_in_pieces_witness :
  Dict.or (Dict.or [("a", 1)] [("b", 2); ("a", 3)]) [("c", 4); ("b", 5)]
  = Dict.or [("a", 1)] (Dict.or [("b", 2); ("a", 3)] [("c", 4); ("b", 5)]).
Proof.
  apply (proj2 merge_in_pieces).
  repeat constructor; simpl; intuition discriminate.
Defined.

Lemma comprehension_covered V (s : QRangeStore.t V) (p : float) (v : V) :
  In v (QRangeStore.comprehension s p)
  <-> exists l h, In (l, h, v) s /\ covers p (l, h, v) = true.
Proof.
  rewrite QRangeStoreFacts.comprehension_filter, in_map_iff. split.
  - intros ([[l h] v'] & E & I). apply filter_In in I. simpl in E. subst.
    exists l, h. exact I.
  - intros (l & h & I & C). exists (l, h, v). split; [reflexivity|].
    apply filter_In. auto.
Qed.

(** X6.  [read] never raises and never changes the world; the snapshot it
    returns has no key twice, its keys are exactly the keys of the stored
    values whose range holds the point, and it is the empty dictionary when
    no range holds the point. *)
Theorem read_never_raises (t : float) (w : world) :
  exists u,
    read t w = (Ok u, w)
    /\ NoDup (Dict.keys u)
    /\ (forall k, In k (Dict.keys u)
                  <-> exists l h v, In (l, h, v) (store w)
                                    /\ covers t (l, h, v) = true
                                    /\ In k (Dict.keys v))
    /\ (existsb (covers t) (store w) = false -> u = []).
Proof.
  exists (snapshot w t). split; [apply read_eq|]. split; [apply merge_NoDup|]. split.
  - intros k. unfold snapshot. rewrite merge_keys. split.
    + intros (d & Hd & Hk). apply comprehension_covered in Hd.
      destruct Hd as (l & h & H1 & H2). exists l, h, d. auto.
    + intros (l & h & v & H1 & H2 & Hk). exists v. split; [|exact Hk].
      apply comprehension_covered. eauto.
  - intros E. unfold snapshot.
    rewrite QRangeStoreFacts.comprehension_filter.
    rewrite QRangeStoreFacts.filter_nil_existsb in E.
    destruct (filter (covers t) (store w)); [reflexivity|discriminate].
Qed.

Lemma read_never_raises_witness :
  exists u, read 5%float (start init) = (Ok u, start init) /\ u = [].
Proof.
  destruct (read_never_raises 5%float (start init)) as (u & E & _ & _ & H).
  exists u. split; [exact E|]. apply H. reflexivity.
Defined.

(** ** The outcome of [propagate] *)

Section Outcome.
Local Open Scope float_scope.
Variable a : string.
Variable self : AgentState.

Lemma force_loop_cases items fx fy :
  force_loop a (m self) (x self) (y self) items fx fy
  = if existsb (fun b => distance self b =? 0) (others a items)
    then Raise ZeroDivisionError
    else Ok (fold_left (fun acc b => acc + force_magnitude self b * (x b - x self)
                                           / distance self b)
                       (others a items) fx,
             fold_left (fun acc b => acc + force_magnitude self b * (y b - y self)
                                           / distance self b)
                       (others a items) fy).
Proof.
  revert fx fy. induction items as [|[ID body] rest IH]; intros fx fy; [reflexivity|].
  unfold others in *. cbn [filter fst].
  destruct (String.eqb ID a) eqn:N; cbn [negb map snd fold_left existsb].
  - cbn [force_loop]. rewrite N. apply IH.
  - rewrite force_loop_other by exact N.
    destruct (distance self body =? 0); [reflexivity|]. apply IH.
Qed.

Lemma force_loop_same_bodies u u' fx fy :
  same_bodies u u' ->
  force_loop a (m self) (x self) (y self) u fx fy
  = force_loop a (m self) (x self) (y self) u' fx fy.
Proof.
  intros H. revert fx fy.
  induction H as [|[ID body] [ID' body'] u u' (Ek & Ex & Ey & Em) _ IH]; intros fx fy;
    [reflexivity|].
  cbn [fst snd] in *. subst ID'.
  destruct (String.eqb ID a) eqn:N.
  - cbn [force_loop]. rewrite N. apply IH.
  - rewrite !force_loop_other by exact N.
    unfold force_magnitude, distance. rewrite Ex, Ey, Em.
    destruct (_ =? 0); [reflexivity|]. apply IH.
Qed.

End Outcome.

(** [time_step ** 2] either gives a float or raises OverflowError. *)
Lemma pow2_cases (platform : Libm) (v : float) :
  PyFloat.pow2 v = Raise OverflowError \/ exists sq, PyFloat.pow2 v = Ok sq.
Proof.
  unfold PyFloat.pow2.
  destruct (is_nan v); [right; eexists; reflexivity|].
  destruct (is_infinity v); [right; eexists; reflexivity|].
  destruct (v =? 0)%float; [right; eexists; reflexivity|].
  cbv zeta. destruct (_ =? 1)%float; [right; eexists; reflexivity|].
  destruct (if c_pow2_erange _ then _ else _); [now left|right; eexists; reflexivity].
Qed.

Lemma propagate_cases (platform : Libm) (a : string) (u : Dict.t AgentState) :
  propagate a u
  = match Dict.get u a with
    | None => Raise (KeyError a)
    | Some self =>
        if existsb (fun b => distance self b =? 0)%float (others a u)
        then Raise ZeroDivisionError
        else if (m self =? 0)%float then Raise ZeroDivisionError
        else match PyFloat.pow2 (time_step self) with
             | Raise e => Raise e
             | Ok sq => Ok (propagated a self sq u)
             end
    end.
Proof.
  unfold propagate. destruct (Dict.get u a) as [self|]; [|reflexivity].
  cbv zeta. rewrite force_loop_cases.
  destruct (existsb _ _); [reflexivity|].
  unfold rbind, PyFloat.div. cbn [fst snd].
  destruct (m self =? 0)%float; [reflexivity|]. cbv zeta.
  destruct (PyFloat.pow2 _); reflexivity.
Qed.

(** X7.  What [propagate] does is decided by four tests in this order: it
    raises KeyError when the snapshot has no state for the agent,
    ZeroDivisionError when some other body is at computed distance zero,
    ZeroDivisionError when the agent's mass is zero, the error of
    [time_step ** 2] when that raises, and otherwise returns the state of
    the reference computation with the value of [time_step ** 2] as the
    square; [time_step ** 2] raises nothing but OverflowError, so
    [propagate] raises nothing else.  This holds on every platform. *)
Theorem propagate_outcome :
  forall (platform : Libm) (a : string) (u : Dict.t AgentState),
    propagate a u
    = match Dict.get u a with
      | None => Raise (KeyError a)
      | Some self =>
          if existsb (fun b => distance self b =? 0)%float (others a u)
          then Raise ZeroDivisionError
          else if (m self =? 0)%float then Raise ZeroDivisionError
          else match PyFloat.pow2 (time_step self) with
               | Raise e => Raise e
               | Ok sq => Ok (propagated a self sq u)
               end
      end
    /\ forall v : float,
         PyFloat.pow2 v = Raise OverflowError \/ exists sq, PyFloat.pow2 v = Ok sq.
Proof.
  intros platform a u. split.
  - unfold propagate. destruct (Dict.get u a) as [self|]; [|reflexivity].
    cbv zeta. rewrite force_loop_cases.
    destruct (existsb _ _); [reflexivity|].
    unfold rbind, PyFloat.div. cbn [fst snd].
    destruct (m self =? 0)%float; [reflexivity|]. cbv zeta.
    destruct (PyFloat.pow2 _); reflexivity.
  - intros v. unfold PyFloat.pow2.
    destruct (is_nan v); [right; eexists; reflexivity|].
    destruct (is_infinity v); [right; eexists; reflexivity|].
    destruct (v =? 0)%float; [right; eexists; reflexivity|].
    cbv zeta. destruct (_ =? 1)%float; [right; eexists; reflexivity|].
    destruct (if c_pow2_erange _ then _ else _); [now left|right; eexists; reflexivity].
Qed.

(** X8.  [propagate] reads nothing of the other bodies but their keys,
    positions and masses: on two snapshots that hold the same state for the
    agent and bodies with the same keys, positions and masses in the same
    order, it gives the same result, whatever their names, times, steps and
    velocities are. *)
Theorem propagate_reads_positions_and_masses :
  forall (platform : Libm) (a : string) (u u' : Dict.t AgentState) (self : AgentState),
    Dict.get u a = Some self ->
    Dict.get u' a = Some self ->
    same_bodies u u' ->
    propagate a u = propagate a u'.
Proof.
  intros platform a u u' self H H' S. unfold propagate. rewrite H, H'. cbv zeta.
  now rewrite (force_loop_same_bodies a self 0%float 0%float S).
Qed.

Lemma propagate_reads_positions_and_masses_witness :
  propagate (L := correctly_rounded) "Planet" init
  = propagate (L := correctly_rounded) "Planet" init_renamed.
Proof.
  apply propagate_reads_positions_and_masses
    with (self := mkAgent "Earth" 0 0.02 0 0 (-0.01) 0 1000); try reflexivity.
  repeat constructor.
Defined.

(** ** The loop: how it ends and what it keeps *)

Lemma for_each_outcome S A (I : S -> Prop) (Q : result unit -> Prop)
    (body : A -> M S unit) (l : list A) :
  Q (Ok tt) ->
  (forall a s, In a l -> I s -> I (snd (body a s)) /\ Q (fst (body a s))) ->
  forall s, I s -> I (snd (for_each l body s)) /\ Q (fst (for_each l body s)).
Proof.
  intros Q0. induction l as [|a l IH]; cbn [for_each]; intros Hb s Hs; [split; assumption|].
  unfold bind. destruct (Hb a s (or_introl eq_refl) Hs) as [H1 H2].
  destruct (body a s) as [[[]|e] s']; cbn [fst snd] in *; [|split; assumption].
  apply IH; [|exact H1]. intros a' s0 Hin. apply Hb. now right.
Qed.

Lemma for_range_outcome S (I : S -> Prop) (Q : result unit -> Prop)
    (body : M S unit) (n : nat) :
  Q (Ok tt) ->
  (forall s, I s -> I (snd (body s)) /\ Q (fst (body s))) ->
  forall s, I s -> I (snd (for_range n body s)) /\ Q (fst (for_range n body s)).
Proof.
  intros Q0 Hb. induction n as [|n IH]; cbn [for_range]; intros s Hs; [split; assumption|].
  unfold bind. destruct (Hb s Hs) as [H1 H2].
  destruct (body s) as [[[]|e] s']; cbn [fst snd] in *; [|split; assumption].
  now apply IH.
Qed.

Section LoopFacts.
Context {platform : Libm}.
Variable seed : Dict.t AgentState.
Local Open Scope float_scope.

Lemma get_map_present (d : Dict.t AgentState) a :
  In a (Dict.keys d) -> Dict.get (map (fun kv => (fst kv, time (snd kv))) d) a <> None.
Proof.
  induction d as [|[k s] d IH]; simpl; [tauto|].
  destruct (String.eqb_spec k a); [discriminate|].
  intros [?|?]; [contradiction|auto].
Qed.

Lemma cursors_present_start : cursors_present seed (start seed).
Proof. intros a Ha. unfold start. rewrite setup_eq. now apply get_map_present. Qed.

Lemma cursors_present_tick a w :
  cursors_present seed w -> cursors_present seed (snd (tick seed a w)).
Proof.
  intros K. destruct (tick_outcome seed a w) as [->|(t & ns & Ht & G & P & L & ->)]; [exact K|].
  intros b Hb. cbn [snd times].
  destruct (String.eqb_spec a b) as [<-|Ne].
  - now rewrite DictFacts.get_set_same.
  - rewrite DictFacts.get_set_other by exact Ne. now apply K.
Qed.

Lemma tick_loop_outcome a w :
  In a (Dict.keys seed) -> cursors_present seed w -> loop_outcome (fst (tick seed a w)).
Proof.
  intros Ha K. rewrite tick_eq. specialize (K a Ha).
  destruct (Dict.get (times w) a) as [t|]; [|contradiction]. cbv zeta.
  destruct (Dict.set_eqb _ _) eqn:G; [|now left].
  rewrite propagate_cases.
  destruct (Dict.get (snapshot w (t - 0.001)) a) as [self|] eqn:Hs.
  - destruct (existsb _ _); [right; left; reflexivity|].
    destruct (m self =? 0); [right; left; reflexivity|].
    destruct (pow2_cases platform (time_step self)) as [E|(sq & E)]; rewrite E;
      [right; right; left; reflexivity|].
    destruct (t <? _); [left; reflexivity|right; right; right; reflexivity].
  - exfalso. apply DictFacts.get_None in Hs. apply Hs.
    apply DictFacts.set_eqb_incl in G. now apply (proj2 G).
Qed.

(** *** The store only grows *)

Lemma tick_appends a w : exists rest, store (snd (tick seed a w)) = store w ++ rest.
Proof.
  destruct (tick_outcome seed a w) as [->|(t & ns & _ & _ & _ & _ & ->)].
  - exists []. now rewrite app_nil_r.
  - eexists. reflexivity.
Qed.

Lemma loop_appends n w : exists rest, store (snd (loop seed n w)) = store w ++ rest.
Proof.
  unfold loop, pass.
  apply (@for_range_inv world (fun w' => exists rest, store w' = store w ++ rest)).
  - intros s Hs.
    apply (@for_each_inv world string (fun w' => exists rest, store w' = store w ++ rest));
      [|exact Hs].
    intros a s0 (rest & E). destruct (tick_appends a s0) as (rest' & E').
    exists (rest ++ rest'). now rewrite E', E, app_assoc.
  - exists []. now rewrite app_nil_r.
Qed.

Lemma program_appends n :
  exists rest, store (snd (program seed n empty_world)) = seed_record seed :: rest.
Proof. rewrite program_eq. apply (loop_appends n (start seed)). Qed.

(** *** The shape of a committed record *)

Lemma shaped_start : shaped seed (start seed).
Proof. exists []. split; [reflexivity|constructor]. Qed.

Lemma shaped_tick a w : shaped seed w -> shaped seed (snd (tick seed a w)).
Proof.
  intros K. destruct (tick_outcome seed a w) as [->|(t & ns & Ht & G & P & L & ->)]; [exact K|].
  destruct K as (rest & E & F). cbn [snd store]. rewrite E.
  exists (rest ++ [(t, time ns, [(a, ns)])]). split; [reflexivity|].
  apply Forall_app. split; [exact F|]. constructor; [|constructor].
  exists a, ns. cbn [fst snd].
  destruct (propagate_ok _ _ P) as (s & Hs & _ & Hstep & _).
  repeat split; try assumption; try reflexivity.
  apply DictFacts.set_eqb_incl in G. apply (proj1 G).
  apply DictFacts.get_In in Hs. change a with (fst (a, s)). now apply in_map.
Qed.

(** *** The ranges of an agent *)

Lemma windows_app a s1 s2 : windows a (s1 ++ s2) = windows a s1 ++ windows a s2.
Proof. unfold windows. apply flat_map_app. Qed.

Lemma linked_snoc from l t h : linked from l t -> linked from (l ++ [(t, h)]) h.
Proof.
  revert from. induction l as [|[lo hi] l IH]; simpl; intros from.
  - intros <-. auto.
  - intros [E H]. split; [exact E|auto].
Qed.

Lemma tiled_start : tiled seed (start seed).
Proof.
  exists []. split; [reflexivity|].
  intros a s0 t H0 Ht. unfold start in Ht. rewrite setup_eq in Ht. cbn [snd times] in Ht.
  apply get_map_time in Ht. destruct Ht as (s & Hs & Et). simpl. congruence.
Qed.

Lemma tiled_tick b w : tiled seed w -> tiled seed (snd (tick seed b w)).
Proof.
  intros K. destruct (tick_outcome seed b w) as [->|(t & ns & Ht & G & P & L & ->)]; [exact K|].
  destruct K as (rest & E & K). cbn [snd store times]. rewrite E.
  exists (rest ++ [(t, time ns, [(b, ns)])]). split; [reflexivity|].
  intros a s0 t' H0. cbn [snd times]. rewrite windows_app.
  assert (W : windows a [(t, time ns, [(b, ns)])]
              = if String.eqb b a then [(t, time ns)] else []).
  { unfold windows. simpl. now destruct (String.eqb b a). }
  rewrite W. destruct (String.eqb_spec b a) as [<-|Ne].
  - rewrite DictFacts.get_set_same. intros E'. injection E' as <-.
    apply linked_snoc. now apply K.
  - rewrite DictFacts.get_set_other by exact Ne. rewrite app_nil_r. now apply K.
Qed.

(** *** A world in which every tick is blocked *)

Lemma blocked_tick a w :
  Dict.get (times w) a <> None -> gate_open seed a w = false -> tick seed a w = (Ok tt, w).
Proof.
  unfold gate_open. rewrite tick_eq.
  destruct (Dict.get (times w) a) as [t|]; [|contradiction]. cbv zeta.
  intros _ ->. reflexivity.
Qed.

Lemma blocked_pass w :
  (forall a, In a (Dict.keys seed) ->
             Dict.get (times w) a <> None /\ gate_open seed a w = false) ->
  pass seed w = (Ok tt, w).
Proof.
  unfold pass. induction (Dict.keys seed) as [|a l IH]; intros H; [reflexivity|].
  cbn [for_each]. unfold bind.
  destruct (H a (or_introl eq_refl)) as [H1 H2]. rewrite (blocked_tick _ _ H1 H2).
  apply IH. intros a' Ha'. apply H. now right.
Qed.

(** *** Cursors *)

Lemma keys_set_present V (d : Dict.t V) k v v' :
  Dict.get d k = Some v' -> Dict.keys (Dict.set d k v) = Dict.keys d.
Proof.
  induction d as [|[k0 v0] d IH]; simpl; [discriminate|].
  destruct (String.eqb k0 k); simpl; [reflexivity|]. intros H. now rewrite IH.
Qed.

Lemma cursors_from_refl w : cursors_from w w.
Proof. split; [reflexivity|]. intros a t H. exists t. auto. Qed.

Lemma cursors_from_tick w b w' : cursors_from w w' -> cursors_from w (snd (tick seed b w')).
Proof.
  intros K. destruct (tick_outcome seed b w') as [->|(tb & ns & Ht & G & P & L & ->)]; [exact K|].
  destruct K as [Ek K]. unfold cursors_from. cbn [snd times]. split.
  - now rewrite (keys_set_present _ _ _ Ht).
  - intros a t Ha. destruct (K a t Ha) as (t' & Ht' & Hle).
    destruct (String.eqb_spec b a) as [<-|Ne].
    + rewrite DictFacts.get_set_same. eexists. split; [reflexivity|].
      right. assert (t' = tb) by congruence. subst t'.
      destruct Hle as [->|Hlt]; [exact L|exact (FloatEdges.ltb_trans Hlt L)].
    + rewrite DictFacts.get_set_other by exact Ne. eauto.
Qed.

End LoopFacts.

(** X9.  Whatever the seed and the number of passes, the program ends
    normally or with ZeroDivisionError, OverflowError or
    IndexError("Invalid Range."); it never ends with a KeyError (every agent
    of the seed keeps a cursor, and an open gate means the snapshot has the
    agent), with a ValueError or with IndexError("Not found."), which [read]
    catches. *)
Theorem loop_ends_in_four_ways :
  forall (platform : Libm) (seed : Dict.t AgentState) (n : nat),
    loop_outcome (fst (program seed n empty_world)).
Proof.
  intros platform seed n. rewrite program_eq. unfold loop, pass.
  apply (@for_range_outcome world (cursors_present seed) loop_outcome);
    [now left| |apply cursors_present_start].
  intros s Hs.
  apply (@for_each_outcome world string (cursors_present seed) loop_outcome);
    [now left| |exact Hs].
  intros a s0 Ha K. split; [now apply cursors_present_tick|now apply tick_loop_outcome].
Qed.

(** X10.  The loop only appends to the store: from any world, the store
    after [n] passes is the store before followed by new records, so no
    record is ever changed or removed, and the seed record stays the first
    record of the program's store. *)
Theorem store_only_grows :
  (forall (platform : Libm) (seed : Dict.t AgentState) (n : nat) (w : world),
      exists rest, store (snd (loop seed n w)) = store w ++ rest)
  /\ (forall (platform : Libm) (seed : Dict.t AgentState) (n : nat),
         exists rest, store (snd (program seed n empty_world)) = seed_record seed :: rest).
Proof.
  split.
  - intros platform seed n w. apply loop_appends.
  - intros platform seed n. rewrite program_eq. apply (loop_appends seed n (start seed)).
Qed.

(** X11.  Every record after the seed record holds the state of exactly one
    agent of the seed, and that state has the upper end of the record's
    range as its [time] and 1.0 as its [time_step]. *)
Theorem committed_records_have_one_agent :
  forall (platform : Libm) (seed : Dict.t AgentState) (n : nat) (low high : float)
         (v : Dict.t AgentState),
    In (low, high, v) (tl (store (snd (program seed n empty_world)))) ->
    exists a ns, v = [(a, ns)] /\ In a (Dict.keys seed)
                 /\ time ns = high /\ time_step ns = 1.0%float.
Proof.
  intros platform seed n low high v Hin.
  assert (K : shaped seed (snd (program seed n empty_world))).
  { apply program_inv; [apply shaped_start|apply shaped_tick]. }
  destruct K as (rest & E & F). rewrite E in Hin. cbn [tl] in Hin.
  rewrite Forall_forall in F. exact (F _ Hin).
Qed.

Lemma committed_records_have_one_agent_witness :
  exists a ns, [("Planet", planet_first)] = [(a, ns)] /\ In a (Dict.keys init)
               /\ time ns = 0.02%float /\ time_step ns = 1.0%float.
Proof.
  apply (@committed_records_have_one_agent correctly_rounded init 1 0%float).
  vm_compute. left. reflexivity.
Defined.

(** X12.  After the seed record, the ranges of the records of one agent
    lead without gap or overlap from the agent's seed time to its cursor:
    the first starts at the seed time, each next one starts where the one
    before ended, and the cursor is the end of the last. *)
Theorem agent_ranges_abut :
  forall (platform : Libm) (seed : Dict.t AgentState) (n : nat) (a : string)
         (s0 : AgentState) (t : float),
    Dict.get seed a = Some s0 ->
    Dict.get (times (snd (program seed n empty_world))) a = Some t ->
    linked (time s0) (windows a (tl (store (snd (program seed n empty_world))))) t.
Proof.
  intros platform seed n a s0 t H0 Ht.
  assert (K : tiled seed (snd (program seed n empty_world))).
  { apply program_inv; [apply tiled_start|apply tiled_tick]. }
  destruct K as (rest & E & K). rewrite E. cbn [tl]. now apply K.
Qed.

Lemma agent_ranges_abut_witness :
  linked 0%float
         (windows "Planet"
            (tl (store (snd (program (L := correctly_rounded) init 2 empty_world)))))
         1.02%float.
Proof.
  apply (@agent_ranges_abut correctly_rounded init 2 "Planet"
           (mkAgent "Earth" 0 0.02 0 0 (-0.01) 0 1000));
    vm_compute; reflexivity.
Defined.

(** X13.  A world in which the gate is closed for every agent of the seed
    is never left: every pass returns normally and changes nothing, however
    many passes follow. *)
Theorem blocked_world_stays :
  forall (platform : Libm) (seed : Dict.t AgentState) (w : world),
    (forall a, In a (Dict.keys seed) ->
               Dict.get (times w) a <> None /\ gate_open seed a w = false) ->
    forall n, loop seed n w = (Ok tt, w).
Proof.
  intros platform seed w H n. unfold loop. induction n as [|n IH]; [reflexivity|].
  cbn [for_range]. unfold bind. now rewrite (blocked_pass seed w H).
Qed.

Lemma blocked_world_stays_witness :
  loop (L := correctly_rounded) late 5 (start late) = (Ok tt, start late).
Proof.
  apply (@blocked_world_stays correctly_rounded).
  intros a [<-|[]]. split; [discriminate|reflexivity].
Defined.

(** X14.  The loop keeps the keys of the cursor map as they are and never
    moves a cursor back: after any number of passes from any world, every
    cursor is where it was or strictly later. *)
Theorem cursors_never_move_back :
  forall (platform : Libm) (seed : Dict.t AgentState) (n : nat) (w : world),
    Dict.keys (times (snd (loop seed n w))) = Dict.keys (times w)
    /\ forall a t, Dict.get (times w) a = Some t ->
         exists t', Dict.get (times (snd (loop seed n w))) a = Some t'
                    /\ (t' = t \/ (t <? t')%float = true).
Proof.
  intros platform seed n w. change (cursors_from w (snd (loop seed n w))).
  unfold loop, pass.
  apply (@for_range_inv world (cursors_from w)); [|apply cursors_from_refl].
  intros s Hs. apply (@for_each_inv world string (cursors_from w)); [|exact Hs].
  intros a s0. apply cursors_from_tick.
Qed.

Lemma cursors_never_move_back_witness :
  exists t', Dict.get (times (snd (loop (L := correctly_rounded) init 2 (start init))))
                      "Planet" = Some t'
             /\ (t' = 0%float \/ (0 <? t')%float = true).
Proof.
  apply (proj2 (cursors_never_move_back correctly_rounded init 2 (start init))).
  reflexivity.
Defined.

(** ** Records per agent *)

Section PerAgent.
Context {platform : Libm}.
Variable seed : Dict.t AgentState.
Variable a : string.

Lemma tick_adds_for_agent b w :
  (List.length (windows a (store (snd (tick seed b w))))
   <= List.length (windows a (store w)) + (if String.eqb b a then 1 else 0))%nat.
Proof.
  destruct (tick_outcome seed b w) as [->|(t & ns & _ & _ & _ & _ & ->)]; [lia|].
  cbn [snd store]. rewrite windows_app, length_app.
  unfold windows at 2. simpl. destruct (String.eqb b a); simpl; lia.
Qed.

Lemma count_occ_eqb (l : list string) :
  count_occ string_dec l a
  = fold_right (fun b acc => ((if String.eqb b a then 1 else 0) + acc)%nat) 0%nat l.
Proof.
  induction l as [|b l IH]; simpl; [reflexivity|].
  destruct (string_dec b a) as [->|Ne].
  - now rewrite String.eqb_refl, IH.
  - apply String.eqb_neq in Ne. now rewrite Ne, IH.
Qed.

Lemma for_each_adds_for_agent (l : list string) w :
  (List.length (windows a (store (snd (for_each l (tick seed) w))))
   <= List.length (windows a (store w)) + count_occ string_dec l a)%nat.
Proof.
  rewrite count_occ_eqb. revert w.
  induction l as [|b l IH]; intros w; cbn [for_each fold_right]; [simpl; lia|].
  unfold bind. pose proof (tick_adds_for_agent b w) as H.
  destruct (tick seed b w) as [[[]|e] w']; cbn [snd] in *; [|lia].
  specialize (IH w'). lia.
Qed.

Lemma loop_adds_for_agent n w :
  (List.length (windows a (store (snd (loop seed n w))))
   <= List.length (windows a (store w)) + n * count_occ string_dec (Dict.keys seed) a)%nat.
Proof.
  revert w. unfold loop. induction n as [|n IH]; intros w; cbn [for_range]; [simpl; lia|].
  unfold bind, pass at 1. pose proof (for_each_adds_for_agent (Dict.keys seed) w) as H.
  destruct (for_each (Dict.keys seed) (tick seed) w) as [[[]|e] w']; cbn [snd] in *; [|lia].
  specialize (IH w'). lia.
Qed.

End PerAgent.

(** X15.  No agent is advanced more often than it is visited: after [n]
    passes the store holds, beyond the seed record, at most [n] records of
    an agent for each time its key occurs in the seed; an agent of a
    well-formed seed has at most [n], a key outside the seed has none. *)
Theorem records_per_agent :
  forall (platform : Libm) (seed : Dict.t AgentState) (n : nat) (a : string),
    (List.length (windows a (tl (store (snd (program seed n empty_world)))))
     <= n * count_occ string_dec (Dict.keys seed) a)%nat
    /\ (wf_dict seed ->
        (List.length (windows a (tl (store (snd (program seed n empty_world))))) <= n)%nat).
Proof.
  intros platform seed n a.
  assert (B : (List.length (windows a (tl (store (snd (program seed n empty_world)))))
               <= n * count_occ string_dec (Dict.keys seed) a)%nat).
  { pose proof (loop_adds_for_agent seed a n (start seed)) as H.
    rewrite <- program_eq in H.
    destruct (program_appends seed n) as (rest & E). rewrite E in *. cbn [tl].
    change (seed_record seed :: rest) with ([seed_record seed] ++ rest) in H.
    rewrite windows_app, length_app in H.
    change (store (start seed)) with [seed_record seed] in H. lia. }
  split; [exact B|]. intros W.
  assert (C : (count_occ string_dec (Dict.keys seed) a <= 1)%nat).
  { apply NoDup_count_occ. exact W. }
  nia.
Qed.

Lemma records_per_agent_witness :
  wf_dict init
  /\ (List.length
        (windows "Sun"
           (tl (store (snd (program (L := correctly_rounded) init 2 empty_world)))))
      <= 2)%nat.
Proof.
  assert (W : wf_dict init).
  { repeat constructor; simpl; intuition discriminate. }
  split; [exact W|]. exact (proj2 (records_per_agent correctly_rounded init 2 "Sun") W).
Defined.

(** X16.  An agent's cursor is the [time] of the last state the store
    records for it (the seed state as long as the agent has not been
    advanced). *)
Theorem cursor_is_last_recorded_time :
  forall (platform : Libm) (seed : Dict.t AgentState) (n : nat) (a : string) (t : float),
    Dict.get (times (snd (program seed n empty_world))) a = Some t ->
    exists pre s,
      history a (store (snd (program seed n empty_world))) = pre ++ [s] /\ time s = t.
Proof.
  intros platform seed n a t Ht.
  assert (K : times_increase (snd (program seed n empty_world))).
  { apply program_inv; [apply times_increase_start|apply times_increase_tick]. }
  now apply (proj2 (K a)).
Qed.

Lemma cursor_is_last_recorded_time_witness :
  exists pre s,
    history "Satellite" (store (snd (program (L := correctly_rounded) init 2 empty_world)))
    = pre ++ [s]
    /\ time s = 1.02%float.
Proof.
  apply (@cursor_is_last_recorded_time correctly_rounded). vm_compute. reflexivity.
Defined.
